(** * alg::s_list — a singly-linked list with a sentinel head node

    Shallow embedding of [include/data_structures/s_list.hpp].

    - A [std::shared_ptr<node>] is a [ptr]: [None] is [nullptr], [Some a] is
      the address of a node.  Nodes live in a store ([gmap loc node]); a
      shared pointer never dangles, so the store only grows.  Dropping a
      reference ([reset()]) is therefore invisible in the model.
    - The exceptions of the source are the three constructors of [exn].
    - Member functions are computations in a state monad whose state is the
      list object together with the store of its nodes; a [throw] keeps the
      state reached so far, as a C++ exception does.
    - A member function called through a null pointer has no defined
      behaviour in C++: [p->get()] and [p->next()] with [p] null are
      [Undefined].  The test [this == nullptr] inside [node::get] and
      [node::next] comes after that call, so no defined execution reaches
      its [throw].
    - [m_size] is a [std::size_t].  It counts live nodes, each of which
      occupies its own addresses, so [m_size++] cannot wrap; it is modelled
      as an unbounded [N].
    - A list owns its nodes: the store belongs to one list.  The copy
      operations that the compiler generates, after which two lists would
      share nodes, are not part of the model. *)

From Stdlib Require Import NArith ZArith.
From stdpp Require Import gmap list.

(** ** Pointers, exceptions and outcomes *)

Definition loc := positive.

(** [std::shared_ptr<node>] *)
Abbreviation ptr := (option loc).

(** The exceptions thrown by the source.
    - [EmptyContainer]: the [std::logic_error] behind an [if (empty())] guard
      (find, erase, insert_after, front, back);
    - [ValueNotFound]: the [std::invalid_argument] of erase and insert_after;
    - [InvalidNodeAccess]: the [std::logic_error] that [node::get] and
      [node::next] are written to throw when [this] is the null pointer. *)
Inductive exn := EmptyContainer | ValueNotFound | InvalidNodeAccess.

(** What a call does: return, throw, or have no defined behaviour (a
    member call through a null pointer, a dangling dereference, or a loop
    that follows next-links forever). *)
Inductive outcome (A : Type) :=
| Ok (a : A)
| Throw (e : exn)
| Undefined.
Arguments Ok {A} a.
Arguments Throw {A} e.
Arguments Undefined {A}.

(** ** The state-and-exception monad *)

Definition M (S A : Type) : Type := S → outcome A * S.

Definition ret {S A} (a : A) : M S A := λ s, (Ok a, s).
Definition throw {S A} (e : exn) : M S A := λ s, (Throw e, s).
Definition undefined {S A} : M S A := λ s, (Undefined, s).
Definition this {S} : M S S := λ s, (Ok s, s).

Definition bind {S A B} (m : M S A) (k : A → M S B) : M S B := λ s,
  match m s with
  | (Ok a, s') => k a s'
  | (Throw e, s') => (Throw e, s')
  | (Undefined, s') => (Undefined, s')
  end.

Notation "'let!' x ':=' m 'in' k" := (bind m (λ x, k))
  (at level 10, x name, m at level 100, k at level 200).
Notation "m ';;' k" := (bind m (λ _, k))
  (at level 100, k at level 200, right associativity).

Section Model.
Context {T : Type} `{EqDecision T}.

(** ** struct node *)
Record node := Node { m_data : T; m_next : ptr }.

Abbreviation store := (gmap loc node).

(** [p->get()].  With [p] null the call itself is undefined, before the
    test [this == nullptr] of the body. *)
Definition node_get (h : store) (p : ptr) : outcome T :=
  match p with
  | None => Undefined
  | Some a =>
      match h !! a with
      | Some n => Ok (m_data n)
      | None => Undefined
      end
  end.

(** [p->next()] read as a value; undefined with [p] null, as [p->get()]. *)
Definition node_next (h : store) (p : ptr) : outcome ptr :=
  match p with
  | None => Undefined
  | Some a =>
      match h !! a with
      | Some n => Ok (m_next n)
      | None => Undefined
      end
  end.

(** [p->next() = q]: [next()] returns a reference, which is assigned;
    undefined with [p] null. *)
Definition node_set_next (h : store) (p q : ptr) : outcome store :=
  match p with
  | None => Undefined
  | Some a =>
      match h !! a with
      | Some n => Ok (<[a := Node (m_data n) q]> h)
      | None => Undefined
      end
  end.

(** ** struct iterator *)
Record iterator := Iterator { m_ptr : ptr }.

(** [iterator()] *)
Definition iterator_default : iterator := Iterator None.

(** [operator==], [operator!=] *)
Definition iter_eq (a b : iterator) : bool := bool_decide (m_ptr a = m_ptr b).
Definition iter_ne (a b : iterator) : bool := bool_decide (m_ptr a ≠ m_ptr b).

(** [operator*] *)
Definition deref (h : store) : M iterator T := λ it,
  (node_get h (m_ptr it), it).

(** [operator++()]: [m_ptr = m_ptr->next(); return *this;] *)
Definition pre_incr (h : store) : M iterator iterator := λ it,
  match node_next h (m_ptr it) with
  | Ok q => (Ok (Iterator q), Iterator q)
  | Throw e => (Throw e, it)
  | Undefined => (Undefined, it)
  end.

(** [operator++(int)]: [iterator it { *this }; m_ptr = m_ptr->next();
    return it;] *)
Definition post_incr (h : store) : M iterator iterator := λ it,
  match node_next h (m_ptr it) with
  | Ok q => (Ok it, Iterator q)
  | Throw e => (Throw e, it)
  | Undefined => (Undefined, it)
  end.

(** ** class s_list *)
Record s_list := SList {
  heap : store;      (* the nodes *)
  m_first : ptr;     (* pointer to the beginning of list *)
  m_last : ptr;      (* pointer to the ending of list *)
  m_size : N         (* size of list (count of elements) *)
}.

Definition get_first : M s_list ptr := λ s, (Ok (m_first s), s).
Definition get_last : M s_list ptr := λ s, (Ok (m_last s), s).
Definition set_last (p : ptr) : M s_list unit := λ s,
  (Ok (), SList (heap s) (m_first s) p (m_size s)).
Definition set_size (n : N) : M s_list unit := λ s,
  (Ok (), SList (heap s) (m_first s) (m_last s) n).
Definition incr_size : M s_list unit := λ s,
  (Ok (), SList (heap s) (m_first s) (m_last s) (m_size s + 1)).
Definition decr_size : M s_list unit := λ s,
  (Ok (), SList (heap s) (m_first s) (m_last s) (N.pred (m_size s))).

Definition get (p : ptr) : M s_list T := λ s, (node_get (heap s) p, s).
Definition next (p : ptr) : M s_list ptr := λ s, (node_next (heap s) p, s).
Definition set_next (p q : ptr) : M s_list unit := λ s,
  match node_set_next (heap s) p q with
  | Ok h' => (Ok (), SList h' (m_first s) (m_last s) (m_size s))
  | Throw e => (Throw e, s)
  | Undefined => (Undefined, s)
  end.

(** [std::make_shared<node>(data, nx)]: a node at an unused address. *)
Definition make_shared (data : T) (nx : ptr) : M s_list ptr := λ s,
  let a := fresh (dom (heap s)) in
  (Ok (Some a),
   SList (<[a := Node data nx]> (heap s)) (m_first s) (m_last s) (m_size s)).

(** A loop that follows next-links through a store of [n] nodes either
    ends within [n + 1] tests of its condition or has come back to a node
    it already left; the loops below are run for that many rounds. *)
Definition rounds : M s_list nat := λ s, (Ok (S (size (heap s))), s).

(** [s_list()]: the sentinel is the only node. *)
Definition s_list_ctor (T_default : T) : s_list :=
  let a : loc := fresh (∅ : gset loc) in
  SList {[a := Node T_default None]} (Some a) None 0.

(** [empty()] *)
Definition empty : M s_list bool := λ s,
  (Ok (bool_decide (m_last s = None)), s).

(** [size()] *)
Definition size_ : M s_list N := λ s, (Ok (m_size s), s).

(** The scan of find, erase and insert_after (the three loops are the
    same text):
    [for (; t != m_last && t->next()->get() != item; t = t->next());]
    The result is the final [t]. *)
Fixpoint scan (fuel : nat) (item : T) (t : ptr) : M s_list ptr :=
  match fuel with
  | O => undefined
  | S fuel' =>
      let! last := get_last in
      if bool_decide (t ≠ last) then
        let! nx := next t in
        let! d := get nx in
        if bool_decide (d ≠ item) then
          let! t' := next t in
          scan fuel' item t'
        else ret t
      else ret t
  end.

(** [find(item)] *)
Definition find (item : T) : M s_list ptr :=
  let! e := empty in
  if e then throw EmptyContainer
  else
    let! t := get_first in
    let! fuel := rounds in
    let! t := scan fuel item t in
    let! last := get_last in
    if bool_decide (t = last) then ret None
    else next t.

(** [push_back(item)] *)
Definition push_back (item : T) : M s_list unit :=
  let! e := empty in
  (if e then
     let! n := make_shared item None in
     let! first := get_first in
     set_next first n ;;
     let! first := get_first in
     let! nx := next first in
     set_last nx ;;
     let! last := get_last in
     set_next last None
   else
     let! n := make_shared item None in
     let! last := get_last in
     set_next last n ;;
     let! last := get_last in
     let! nx := next last in
     set_last nx ;;
     let! last := get_last in
     set_next last None) ;;
  incr_size.

(** [push_front(item)] *)
Definition push_front (item : T) : M s_list unit :=
  let! e := empty in
  (if e then
     let! n := make_shared item None in
     let! first := get_first in
     set_next first n ;;
     let! first := get_first in
     let! nx := next first in
     set_last nx ;;
     let! last := get_last in
     set_next last None
   else
     let! tmp := make_shared item None in
     let! first := get_first in
     let! nx := next first in
     set_next tmp nx ;;
     let! first := get_first in
     set_next first tmp ;;
     let! last := get_last in
     set_next last None) ;;
  incr_size.

(** [erase(item)] *)
Definition erase (item : T) : M s_list unit :=
  let! e := empty in
  if e then throw EmptyContainer
  else
    let! t := get_first in
    let! fuel := rounds in
    let! t := scan fuel item t in
    let! last := get_last in
    if bool_decide (t = last) then throw ValueNotFound
    else
      let! to_be_removed := next t in
      let! n1 := next t in
      let! n2 := next n1 in
      set_next t n2 ;;
      let! nx := next t in
      (if bool_decide (nx = None) then set_last t else ret ()) ;;
      let! first := get_first in
      let! last := get_last in
      (if bool_decide (first = last) then set_last None else ret ()) ;;
      decr_size.

(** [insert_after(pos, item)] *)
Definition insert_after (pos item : T) : M s_list unit :=
  let! e := empty in
  if e then throw EmptyContainer
  else
    let! prev := get_first in
    let! fuel := rounds in
    let! prev := scan fuel pos prev in
    let! last := get_last in
    if bool_decide (prev = last) then throw ValueNotFound
    else
      let! prev := next prev in
      let! new_node := make_shared item None in
      let! last := get_last in
      (if bool_decide (prev = last) then
         set_next last new_node ;;
         let! last := get_last in
         let! nx := next last in
         set_last nx ;;
         let! last := get_last in
         set_next last None
       else
         let! tmp := next prev in
         set_next prev new_node ;;
         set_next new_node tmp) ;;
      incr_size.

(** The loop of [clear()]:
    [while (m_first->next() != nullptr) { ptr = m_first->next();
      m_first->next() = m_first->next()->next(); ptr.reset(); }] *)
Fixpoint clear_loop (fuel : nat) : M s_list unit :=
  match fuel with
  | O => undefined
  | S fuel' =>
      let! first := get_first in
      let! nx := next first in
      if bool_decide (nx ≠ None) then
        let! first := get_first in
        let! ptr := next first in
        let! n1 := next first in
        let! n2 := next n1 in
        set_next first n2 ;;
        clear_loop fuel'
      else ret ()
  end.

(** [clear()] *)
Definition clear : M s_list unit :=
  let! fuel := rounds in
  clear_loop fuel ;;
  set_last None ;;
  set_size 0.

(** [front()] *)
Definition front : M s_list T :=
  let! e := empty in
  if e then throw EmptyContainer
  else
    let! first := get_first in
    let! nx := next first in
    get nx.

(** [back()] *)
Definition back : M s_list T :=
  let! e := empty in
  if e then throw EmptyContainer
  else
    let! last := get_last in
    get last.

(** [begin()] *)
Definition begin_ : M s_list iterator :=
  let! first := get_first in
  let! nx := next first in
  ret (Iterator nx).

(** [end()] *)
Definition end_ : M s_list iterator :=
  let! last := get_last in
  let! nx := next last in
  ret (Iterator nx).

(** [s_list(std::initializer_list<T> args)]:
    [for (auto item : args) push_back(item);] on a fresh list. *)
Fixpoint push_back_all (args : list T) : M s_list unit :=
  match args with
  | [] => ret ()
  | item :: rest => push_back item ;; push_back_all rest
  end.

Definition s_list_init (T_default : T) (args : list T) : s_list :=
  snd (push_back_all args (s_list_ctor T_default)).

(** ** Forward traversal

    The sequence of elements an iterator visits from [begin()] until it
    holds the null pointer, the end-of-sequence value:
    [for (it = begin(); it != iterator(); ++it) visit *it].
    The stop value is written [iterator()] and not [end()], which cannot be
    called on every list; where [end()] returns, the two loops agree
    ([range_for_spec]). *)
Fixpoint walk (fuel : nat) (h : store) (stop : iterator)
  : M iterator (list T) :=
  match fuel with
  | O => undefined
  | S fuel' =>
      let! it := this in
      if iter_ne it stop then
        let! x := deref h in
        pre_incr h ;;
        let! r := walk fuel' h stop in
        ret (x :: r)
      else ret []
  end.

Definition traversal : M s_list (list T) :=
  let! b := begin_ in
  let! fuel := rounds in
  λ s, (fst (walk fuel (heap s) iterator_default b), s).

(** The range-for loop, [for (it = begin(); it != end(); ++it)], which
    [operator<<] and the tests use. *)
Definition range_for : M s_list (list T) :=
  let! b := begin_ in
  let! e := end_ in
  let! fuel := rounds in
  λ s, (fst (walk fuel (heap s) e b), s).

End Model.

Arguments node : clear implicits.
Arguments s_list : clear implicits.

(** ** Public operations, reachable states and the invariant *)
Section Specification.
Context {T : Type} `{EqDecision T}.

(** The public member functions of [s_list]. *)
Inductive op :=
| PushBack (item : T)
| PushFront (item : T)
| Erase (item : T)
| InsertAfter (pos item : T)
| Clear
| Find (item : T)
| Front
| Back
| Begin
| End_
| Empty
| Size.

(** The list after a call, whether it returned or threw. *)
Definition exec (o : op) (s : s_list T) : s_list T :=
  match o with
  | PushBack item => snd (push_back item s)
  | PushFront item => snd (push_front item s)
  | Erase item => snd (erase item s)
  | InsertAfter pos item => snd (insert_after pos item s)
  | Clear => snd (clear s)
  | Find item => snd (find item s)
  | Front => snd (front s)
  | Back => snd (back s)
  | Begin => snd (begin_ s)
  | End_ => snd (end_ s)
  | Empty => snd (empty s)
  | Size => snd (size_ s)
  end.

(** The operations that change the list. *)
Definition mutator (o : op) : bool :=
  match o with
  | PushBack _ | PushFront _ | Erase _ | InsertAfter _ _ | Clear => true
  | _ => false
  end.

Definition any_op (o : op) : bool := true.

(** The lists obtained from a constructor by calls among [allowed]. *)
Inductive reachable (T_default : T) (allowed : op → bool) : s_list T → Prop :=
| reach_ctor : reachable T_default allowed (s_list_ctor T_default)
| reach_init args : reachable T_default allowed (s_list_init T_default args)
| reach_step o s :
    allowed o = true →
    reachable T_default allowed s →
    reachable T_default allowed (exec o s).

(** ** The representation invariant *)

(** A segment of the chain: from [p], the nodes [cells] (address and
    element), the last of which links to [q]. *)
Fixpoint lseg (h : gmap loc (node T)) (p : ptr) (cells : list (loc * T))
    (q : ptr) : Prop :=
  match cells with
  | [] => p = q
  | (a, x) :: rest =>
      p = Some a ∧ ∃ nx, h !! a = Some (Node x nx) ∧ lseg h nx rest q
  end.

(** [repr s cells]: the sentinel heads a chain that ends in the null
    pointer and whose real nodes are [cells]; [m_last] is the last of them
    (null when there is none); [m_size] counts them. *)
Definition repr (s : s_list T) (cells : list (loc * T)) : Prop :=
  ∃ a0 d0,
    lseg (heap s) (m_first s) ((a0, d0) :: cells) None
    ∧ m_last s = last (cells.*1)
    ∧ m_size s = N.of_nat (length cells).

(** I3 of the data model: [m_last] is null exactly when [m_size] is 0;
    otherwise it is the node that the chain from the sentinel reaches last,
    the one whose next-link is null. *)
Definition I3 (s : s_list T) : Prop :=
  (m_last s = None ↔ m_size s = 0%N)
  ∧ ∀ a, m_last s = Some a →
      ∃ nodes d, lseg (heap s) (m_first s) nodes (Some a)
                 ∧ heap s !! a = Some (Node d None).

(** The list with the first element equal to [x] removed. *)
Fixpoint remove_first (x : T) (l : list T) : list T :=
  match l with
  | [] => []
  | y :: r => if decide (y = x) then r else y :: remove_first x r
  end.

(** The number of elements equal to [x]. *)
Definition occurrences (x : T) (l : list T) : nat :=
  length (filter (λ y, y = x) l).

End Specification.

(** ** The destructor, the stream insertion and the loops of callers *)
Section Callers.
Context {T : Type} `{EqDecision T}.

Definition lift {S A} (o : outcome A) : M S A := λ s, (o, s).

Definition set_first (p : ptr) : M (s_list T) unit := λ s,
  (Ok (), SList (heap s) p (m_last s) (m_size s)).

(** [~s_list()]: [clear(); m_first.reset();] *)
Definition s_list_dtor : M (s_list T) unit :=
  clear ;;
  set_first None.

(** What [operator<<] inserts into the stream: an element or the string
    that holds one space.  The stream is the sequence of insertions. *)
Inductive token :=
| Elem (e : T)
| Space.

Definition put (t : token) : M (list token) unit := λ out,
  (Ok (), out ++ [t]).

(** The range-for loop of [operator<<], from [it] to [stop]:
    [for (; it != stop; ++it) { const auto& e = *it; s << e << " "; }] *)
Fixpoint put_range (fuel : nat) (h : gmap loc (node T)) (stop it : iterator)
  : M (list token) unit :=
  match fuel with
  | O => undefined
  | S fuel' =>
      if iter_ne it stop then
        let! e := lift (fst (deref h it)) in
        put (Elem e) ;;
        put Space ;;
        let! it' := lift (fst (pre_incr h it)) in
        put_range fuel' h stop it'
      else ret ()
  end.

(** [operator<<(std::ostream& s, const alg::s_list<T>& v)]:
    [for (const auto& e : v) { s << e << " "; }] with the range taken from
    [v.begin()] and [v.end()]. *)
Definition operator_shl (v : s_list T) : M (list token) unit :=
  let! b := lift (fst (begin_ v)) in
  let! e := lift (fst (end_ v)) in
  put_range (S (size (heap v))) (heap v) e b.

(** [++it] done [n] times. *)
Fixpoint advance (n : nat) (h : gmap loc (node T)) : M iterator unit :=
  match n with
  | O => ret ()
  | S n' => pre_incr h ;; advance n' h
  end.

(** [push_front] called with each of [args] in turn. *)
Fixpoint push_front_all (args : list T) : M (s_list T) unit :=
  match args with
  | [] => ret ()
  | item :: rest => push_front item ;; push_front_all rest
  end.

(** How a call ended. *)
Inductive ending :=
| Returned
| Threw (e : exn)
| NoResult.

Definition ending_of {A} (o : outcome A) : ending :=
  match o with
  | Ok _ => Returned
  | Throw e => Threw e
  | Undefined => NoResult
  end.

(** How a call of a public member function ends. *)
Definition call (o : op) (s : s_list T) : ending :=
  match o with
  | PushBack item => ending_of (fst (push_back item s))
  | PushFront item => ending_of (fst (push_front item s))
  | Erase item => ending_of (fst (erase item s))
  | InsertAfter pos item => ending_of (fst (insert_after pos item s))
  | Clear => ending_of (fst (clear s))
  | Find item => ending_of (fst (find item s))
  | Front => ending_of (fst (front s))
  | Back => ending_of (fst (back s))
  | Begin => ending_of (fst (begin_ s))
  | End_ => ending_of (fst (end_ s))
  | Empty => ending_of (fst (empty s))
  | Size => ending_of (fst (size_ s))
  end.

End Callers.

(** ** The instance of the tests: [alg::s_list<int>] *)
Module IntList.
Open Scope Z_scope.

(** [alg::s_list<int> l {};] and [alg::s_list<int> l { ... };] *)
Definition nil : s_list Z := s_list_ctor 0.
Definition of_list (l : list Z) : s_list Z := s_list_init 0 l.

(** The list after a call, and what the call returned. *)
Definition after {A} (m : M (s_list Z) A) (s : s_list Z) : s_list Z :=
  snd (m s).
Definition result {A} (m : M (s_list Z) A) (s : s_list Z) : outcome A :=
  fst (m s).

(** The traversal of the list after the calls [ms]. *)
Definition visits (ms : list (M (s_list Z) unit)) (s : s_list Z)
  : outcome (list Z) :=
  result traversal (foldl (λ s m, after m s) s ms).

(** [{ 1, 2, 3 }] and its nodes: the sentinel is at address 1. *)
Definition l123 : s_list Z := of_list [1; 2; 3].
Definition cells123 : list (loc * Z) :=
  [(2%positive, 1); (3%positive, 2); (4%positive, 3)].
End IntList.

(** Further lists for the instances of the properties. *)
Module MoreLists.
Open Scope Z_scope.

(** [{ 1, 2, 1, 2 }] and its nodes. *)
Definition l1212 : s_list Z := IntList.of_list [1; 2; 1; 2].
Definition cells1212 : list (loc * Z) :=
  [(2%positive, 1); (3%positive, 2); (4%positive, 1); (5%positive, 2)].

(** [{ 7 }] and its node. *)
Definition l7 : s_list Z := IntList.of_list [7].
Definition cells7 : list (loc * Z) := [(2%positive, 7)].
End MoreLists.

(** * Proofs *)

(** Symbolic execution of the monadic code: unfold the primitives, decide
    the pointer comparisons and resolve the store lookups from the context. *)
Ltac munfold :=
  unfold bind, ret, throw, undefined, this, get_first, get_last, set_last,
    set_size, incr_size, decr_size, get, next, set_next, make_shared, rounds,
    empty, size_, deref, pre_incr, post_incr, iter_eq, iter_ne,
    iterator_default, node_get, node_next, node_set_next; simpl.

Ltac mlookup :=
  match goal with
  | H : m_last ?s = _ |- context [m_last ?s] => rewrite H
  | H : m_first ?s = _ |- context [m_first ?s] => rewrite H
  | H : ?h !! ?a = Some _ |- context [?h !! ?a] => rewrite H
  | |- context [<[?a := _]> _ !! ?a] => rewrite lookup_insert_eq
  | |- context [<[?a := _]> _ !! ?b] =>
      rewrite (lookup_insert_ne _ a b) by congruence
  | |- context [bool_decide (?P)] =>
      first [ rewrite (bool_decide_eq_true_2 P) by (done || congruence)
            | rewrite (bool_decide_eq_false_2 P) by (done || congruence || (intros ?; done)) ]
  end.

Ltac mrun := munfold; repeat (mlookup; simpl).

Section Store.
Context {T : Type} `{EqDecision T}.
Implicit Types (h : gmap loc (node T)) (p q : ptr) (cells : list (loc * T)).

Lemma lseg_app h p l1 l2 q :
  lseg h p (l1 ++ l2) q ↔ ∃ r, lseg h p l1 r ∧ lseg h r l2 q.
Proof.
  revert p. induction l1 as [|[a x] l1 IH]; intros p; simpl.
  - split; [intros ?; by exists p | by intros (r & -> & ?)].
  - split.
    + intros (-> & nx & Ha & Hl). apply IH in Hl as (r & ? & ?). eauto 10.
    + intros (r & (-> & nx & Ha & Hl) & Hr). split; [done|].
      exists nx. split; [done|]. apply IH. eauto.
Qed.

Lemma lseg_snoc h p l b x q :
  lseg h p (l ++ [(b, x)]) q ↔ lseg h p l (Some b) ∧ h !! b = Some (Node x q).
Proof.
  rewrite lseg_app. simpl. split.
  - intros (r & ? & -> & nx & ? & ->). done.
  - intros [? ?]. eauto 10.
Qed.

(** Writing a node outside a segment leaves the segment as it is. *)
Lemma lseg_frame h p cells q a n :
  a ∉ cells.*1 → lseg h p cells q → lseg (<[a := n]> h) p cells q.
Proof.
  revert p. induction cells as [|[b x] cells IH]; intros p Hn; simpl; [done|].
  intros (-> & nx & Hb & Hl). split; [done|]. exists nx.
  rewrite fmap_cons in Hn. apply not_elem_of_cons in Hn as [Hab Hn].
  simpl in Hab. rewrite lookup_insert_ne by done. eauto.
Qed.

Lemma lseg_functional h p l1 l2 :
  lseg h p l1 None → lseg h p l2 None → l1 = l2.
Proof.
  revert p l2. induction l1 as [|[a x] l1 IH]; intros p [|[b y] l2]; simpl.
  - done.
  - intros -> (? & _). done.
  - intros (-> & _) ?. done.
  - intros (-> & nx & Ha & Hl) (Hb & nx' & Hb' & Hl').
    injection Hb as <-. rewrite Ha in Hb'. injection Hb' as <- <-.
    f_equal. eauto.
Qed.

Lemma lseg_dom h p cells q a :
  lseg h p cells q → a ∈ cells.*1 → is_Some (h !! a).
Proof.
  revert p. induction cells as [|[b x] cells IH]; intros p; simpl.
  - intros _ Hin. by apply elem_of_nil in Hin.
  - intros (-> & nx & Hb & Hl) Hin. apply elem_of_cons in Hin as [->|Hin]; eauto.
Qed.

(** A chain that reaches the null pointer visits no node twice (I4). *)
Lemma lseg_NoDup h p cells : lseg h p cells None → NoDup (cells.*1).
Proof.
  revert p. induction cells as [|[a x] cells IH]; intros p; simpl.
  - constructor.
  - intros (-> & nx & Ha & Hl). constructor; [|eauto].
    intros Hin. apply list_elem_of_fmap in Hin as ([a' x'] & Heq & Hin).
    simpl in Heq. subst a'.
    apply list_elem_of_split in Hin as (l1 & l2 & ->).
    pose proof Hl as Hl'. apply lseg_app in Hl' as (r & _ & Hr).
    assert (Hfull : lseg h (Some a) ((a, x) :: l1 ++ (a, x') :: l2) None).
    { simpl. eauto. }
    pose proof Hr as Hr'. simpl in Hr'. destruct Hr' as (-> & _).
    pose proof (lseg_functional _ _ _ _ Hfull Hr) as Heq.
    apply (f_equal length) in Heq. simpl in Heq.
    rewrite length_app in Heq. simpl in Heq. lia.
Qed.

Lemma lseg_length h p cells :
  lseg h p cells None → length cells ≤ size h.
Proof.
  intros Hl. pose proof (lseg_NoDup _ _ _ Hl) as Hnd.
  rewrite <- (length_fmap fst), <- size_dom.
  rewrite <- (size_list_to_set (C := gset loc)) by done.
  apply subseteq_size. intros a Ha.
  apply elem_of_list_to_set in Ha. apply elem_of_dom.
  eapply lseg_dom; eauto.
Qed.

Lemma lseg_fresh h p cells :
  lseg h p cells None → fresh (dom h) ∉ cells.*1.
Proof.
  intros Hl Hin. eapply lseg_dom in Hin; [|done].
  apply elem_of_dom in Hin. by apply is_fresh in Hin.
Qed.

Lemma notin_fst_app (a : loc) (l1 l2 : list (loc * T)) :
  a ∉ (l1 ++ l2).*1 ↔ (a ∉ l1.*1) ∧ (a ∉ l2.*1).
Proof. rewrite fmap_app. apply not_elem_of_app. Qed.

Lemma notin_fst_cons (a b : loc) (x : T) (l : list (loc * T)) :
  a ∉ ((b, x) :: l).*1 ↔ a ≠ b ∧ a ∉ l.*1.
Proof. rewrite fmap_cons. apply not_elem_of_cons. Qed.

Lemma NoDup_fst_app (l1 l2 : list (loc * T)) :
  NoDup ((l1 ++ l2).*1) ↔
  NoDup (l1.*1) ∧ (∀ a, a ∈ l1.*1 → a ∉ l2.*1) ∧ NoDup (l2.*1).
Proof. rewrite fmap_app. apply NoDup_app. Qed.

Lemma NoDup_fst_cons (b : loc) (x : T) (l : list (loc * T)) :
  NoDup (((b, x) :: l).*1) ↔ (b ∉ l.*1) ∧ NoDup (l.*1).
Proof. rewrite fmap_cons. apply NoDup_cons. Qed.

Lemma last_fst_snoc (l : list (loc * T)) (a : loc) (x : T) :
  last ((l ++ [(a, x)]).*1) = Some a.
Proof. rewrite fmap_app. simpl. apply last_snoc. Qed.

End Store.

Section Scan.
Context {T : Type} `{EqDecision T}.
Implicit Types (s : s_list T) (cells pre post : list (loc * T)).

Lemma last_cons_elem (a : loc) (l : list loc) :
  ∃ e, last (a :: l) = Some e ∧ e ∈ a :: l.
Proof.
  destruct (last (a :: l)) as [e|] eqn:He.
  - exists e. split; [done|]. apply last_Some in He as [l' He].
    rewrite He. apply elem_of_app. right. apply list_elem_of_singleton. done.
  - apply last_None in He. done.
Qed.

(** The scan stops at the node before the first one that holds [item]. *)
Lemma scan_found s item b post e fuel pre a d :
  lseg (heap s) (Some a) (((a, d) :: pre) ++ (b, item) :: post) None →
  item ∉ pre.*2 →
  m_last s = Some e → e ∈ b :: post.*1 →
  length pre < fuel →
  scan fuel item (Some a) s = (Ok (last (a :: pre.*1)), s).
Proof.
  intros Hl Hni Hlast He. revert a d fuel Hl.
  induction pre as [|[c x] pre IH]; intros a d fuel Hl Hf.
  - destruct fuel as [|fuel]; [simpl in Hf; lia|].
    pose proof (lseg_NoDup _ _ _ Hl) as Hnd. simpl in Hnd, Hl.
    destruct Hl as (_ & nx & Ha & -> & nx' & Hb & _).
    apply NoDup_cons in Hnd as [Hnd _].
    assert (a ≠ e) by (intros ->; done).
    simpl. munfold. rewrite Hlast. by mrun.
  - destruct fuel as [|fuel]; [simpl in Hf; lia|].
    pose proof (lseg_NoDup _ _ _ Hl) as Hnd.
    simpl in Hl. destruct Hl as (_ & nx & Ha & -> & nx' & Hc & Hl).
    simpl in Hnd. apply NoDup_cons in Hnd as [Hnd _].
    assert (a ≠ e).
    { intros ->. apply Hnd. right. rewrite fmap_app. apply elem_of_app.
      right. done. }
    rewrite fmap_cons in Hni. apply not_elem_of_cons in Hni as [Hx Hni].
    simpl in Hx.
    simpl. munfold. rewrite Hlast. mrun.
    rewrite (IH Hni c x fuel); [done|simpl; eauto|simpl in Hf; lia].
Qed.

(** Without a match the scan stops at the last node. *)
Lemma scan_absent s item fuel rest a d :
  lseg (heap s) (Some a) ((a, d) :: rest) None →
  item ∉ rest.*2 →
  m_last s = last (a :: rest.*1) →
  length rest < fuel →
  scan fuel item (Some a) s = (Ok (m_last s), s).
Proof.
  revert a d fuel. induction rest as [|[c x] rest IH]; intros a d fuel Hl Hni Hlast Hf.
  - destruct fuel as [|fuel]; [simpl in Hf; lia|].
    simpl in Hlast. simpl. munfold. rewrite Hlast. by mrun.
  - destruct fuel as [|fuel]; [simpl in Hf; lia|].
    pose proof (lseg_NoDup _ _ _ Hl) as Hnd.
    simpl in Hl. destruct Hl as (_ & nx & Ha & -> & nx' & Hc & Hl).
    simpl in Hnd. apply NoDup_cons in Hnd as [Hnd _].
    destruct (last_cons_elem c (rest.*1)) as (e & He & Hin).
    assert (Hlast' : m_last s = last (c :: rest.*1)) by done.
    assert (a ≠ e) by (intros ->; done).
    rewrite fmap_cons in Hni. apply not_elem_of_cons in Hni as [Hx Hni].
    simpl in Hx.
    simpl. munfold. rewrite Hlast', He. mrun.
    rewrite (IH c x fuel); [|simpl; eauto|done|done|simpl in Hf; lia].
    by rewrite Hlast', He.
Qed.

(** The scan reads and never writes. *)
Lemma scan_state fuel item t s : snd (scan fuel item t s) = s.
Proof.
  revert t. induction fuel as [|fuel IH]; intros t; [done|].
  simpl. unfold bind, get_last, next, get, ret. simpl.
  case_bool_decide; simpl; [|done].
  destruct (node_next (heap s) t) as [nx| |] eqn:Hnx; simpl; [|done..].
  destruct (node_get (heap s) nx) as [d| |]; simpl; [|done..].
  case_bool_decide; simpl; [|done]. rewrite Hnx. apply IH.
Qed.

(** Where the scan stops short of [m_last], the next node exists and
    holds [item]. *)
Lemma scan_stop fuel item t s t' s' :
  scan fuel item t s = (Ok t', s') →
  t' ≠ m_last s →
  ∃ a n b nb, t' = Some a ∧ heap s !! a = Some n ∧ m_next n = Some b
              ∧ heap s !! b = Some nb ∧ m_data nb = item.
Proof.
  revert t. induction fuel as [|fuel IH]; intros t; [done|].
  simpl. unfold bind, get_last, next, get, ret. simpl.
  case_bool_decide as Ht; simpl; [|intros [= <- <-]; done].
  destruct (node_next (heap s) t) as [nx| |] eqn:Hnx; simpl; [|done..].
  destruct (node_get (heap s) nx) as [d| |] eqn:Hd; simpl; [|done..].
  case_bool_decide as Hne; simpl; [rewrite Hnx; by apply IH|].
  intros [= <- <-] _.
  unfold node_next in Hnx. destruct t as [a|]; [|done].
  destruct (heap s !! a) as [n|] eqn:Ha; [|done]. injection Hnx as <-.
  unfold node_get in Hd. destruct (m_next n) as [b|] eqn:Hb; [|done].
  destruct (heap s !! b) as [nb|] eqn:Hnb; [|done]. injection Hd as Hd.
  exists a, n, b, nb. by rewrite Hd.
Qed.

(** The loop of [clear] unlinks the real nodes one by one. *)
Lemma clear_loop_spec cells (h : gmap loc (node T)) a0 d0 q l n fuel :
  h !! a0 = Some (Node d0 q) →
  lseg h q cells None →
  a0 ∉ cells.*1 →
  length cells < fuel →
  clear_loop fuel (SList h (Some a0) l n)
  = (Ok (), SList (<[a0 := Node d0 None]> h) (Some a0) l n).
Proof.
  revert h q fuel.
  induction cells as [|[c x] cells IH]; intros h q fuel Ha0 Hl Hn Hf;
    (destruct fuel as [|fuel]; [simpl in Hf; lia|]).
  - simpl in Hl. subst q. simpl. mrun. by rewrite insert_id.
  - simpl in Hl. destruct Hl as (-> & q' & Hc & Hl).
    apply notin_fst_cons in Hn as [Hne Hn].
    simpl. mrun.
    rewrite (IH _ q' fuel); [|by simplify_map_eq|by apply lseg_frame|done|].
    + by rewrite insert_insert_eq.
    + simpl in Hf. lia.
Qed.

(** Walking a chain with an iterator visits its elements in order. *)
Lemma walk_spec cells (h : gmap loc (node T)) p fuel :
  lseg h p cells None →
  length cells < fuel →
  walk fuel h iterator_default (Iterator p) = (Ok (cells.*2), Iterator None).
Proof.
  unfold iterator_default. revert p fuel.
  induction cells as [|[c x] cells IH]; intros p fuel Hl Hf;
    (destruct fuel as [|fuel]; [simpl in Hf; lia|]).
  - simpl in Hl. subst p. simpl. by mrun.
  - simpl in Hl. destruct Hl as (-> & q & Hc & Hl).
    simpl. mrun. rewrite (IH q fuel); [done|done|simpl in Hf; lia].
Qed.

End Scan.

Section Operations.
Context {T : Type} `{EqDecision T}.
Implicit Types (s : s_list T) (cells pre post : list (loc * T)).

#[local] Arguments scan : simpl never.
#[local] Arguments clear_loop : simpl never.
#[local] Arguments walk : simpl never.

Lemma repr_rounds s cells : repr s cells → length cells < size (heap s).
Proof.
  intros (a0 & d0 & Hl & _). apply lseg_length in Hl. simpl in Hl. lia.
Qed.

Lemma repr_NoDup s cells : repr s cells → NoDup (cells.*1).
Proof.
  intros (a0 & d0 & Hl & _). apply lseg_NoDup in Hl.
  simpl in Hl. by apply NoDup_cons in Hl as [_ ?].
Qed.

Lemma repr_functional s cells1 cells2 :
  repr s cells1 → repr s cells2 → cells1 = cells2.
Proof.
  intros (a0 & d0 & Hl & _) (a0' & d0' & Hl' & _).
  pose proof (lseg_functional _ _ _ _ Hl Hl') as Heq. by injection Heq.
Qed.

Lemma repr_empty s cells : repr s cells → (m_last s = None ↔ cells = []).
Proof.
  intros (a0 & d0 & _ & -> & _). rewrite last_None.
  split; [apply fmap_nil_inv | by intros ->].
Qed.

Lemma ctor_repr (T_default : T) : repr (s_list_ctor T_default) [].
Proof.
  exists (fresh (∅ : gset loc)), T_default. simpl. split_and!; try done.
  exists None. split; [apply lookup_singleton_eq|done].
Qed.

Lemma push_back_spec s cells v :
  repr s cells →
  ∃ a s', push_back v s = (Ok (), s') ∧ repr s' (cells ++ [(a, v)])
          ∧ m_first s' = m_first s.
Proof.
  intros (a0 & d0 & Hl & Hlast & Hsize).
  destruct s as [h f l n]. cbn [heap m_first m_last m_size] in *.
  pose proof (lseg_fresh _ _ _ Hl) as Hfresh.
  pose proof (lseg_NoDup _ _ _ Hl) as Hnd.
  set (a := fresh (dom h)) in *.
  exists a.
  destruct cells as [|c cells _] using rev_ind.
  - simpl in *. destruct Hl as (-> & nx & Ha0 & ->). subst l.
    apply not_elem_of_cons in Hfresh as [Hne _].
    eexists. split; [unfold push_back; mrun; fold a; mrun; reflexivity|].
    split; [|done].
    exists a0, d0. split; [|split; [done|simpl; lia]].
    simpl. split; [done|]. eexists. split; [by simplify_map_eq|].
    split; [done|]. eexists. split; [by simplify_map_eq|done].
  - destruct c as [b x]. rewrite fmap_app in Hlast. simpl in Hlast.
    rewrite last_snoc in Hlast. subst l.
    rewrite app_comm_cons in Hl, Hfresh, Hnd.
    apply lseg_snoc in Hl as [Hl Hb].
    apply notin_fst_app in Hfresh as [Hfresh Hab].
    apply notin_fst_cons in Hab as [Hab _].
    apply NoDup_fst_app in Hnd as (_ & Hnd & _).
    assert (Hbn : b ∉ ((a0, d0) :: cells).*1).
    { intros Hin. apply (Hnd b Hin). left. }
    pose proof Hl as (_ & nx & Ha0 & _).
    assert (a0 ≠ b ∧ a0 ≠ a) as [? ?].
    { apply notin_fst_cons in Hbn as [? _].
      apply notin_fst_cons in Hfresh as [? _]. done. }
    eexists. split; [unfold push_back; mrun; fold a; mrun; reflexivity|].
    split; [|done].
    exists a0, d0. split; [|split].
    + cbn [heap m_first].
      change (lseg ?h ?p _ None)
        with (lseg h p ((((a0, d0) :: cells) ++ [(b, x)]) ++ [(a, v)]) None).
      apply lseg_snoc. split; [|by simplify_map_eq].
      apply lseg_snoc. split; [|by simplify_map_eq].
      by do 3 (apply lseg_frame; [done|]).
    + simpl. by rewrite last_fst_snoc.
    + cbn [m_size]. rewrite Hsize, !length_app. simpl. lia.
Qed.

Lemma push_front_spec s cells v :
  repr s cells →
  ∃ a s', push_front v s = (Ok (), s') ∧ repr s' ((a, v) :: cells)
          ∧ m_first s' = m_first s.
Proof.
  intros (a0 & d0 & Hl & Hlast & Hsize).
  destruct s as [h f l n]. cbn [heap m_first m_last m_size] in *.
  pose proof (lseg_fresh _ _ _ Hl) as Hfresh.
  pose proof (lseg_NoDup _ _ _ Hl) as Hnd.
  set (a := fresh (dom h)) in *.
  exists a.
  apply notin_fst_cons in Hfresh as [Hne Hfresh].
  apply NoDup_fst_cons in Hnd as [Ha0 Hnd].
  destruct Hl as (-> & q & Hh0 & Hl).
  destruct cells as [|c cells _] using rev_ind.
  - simpl in *. subst l q.
    eexists. split; [unfold push_front; mrun; fold a; mrun; reflexivity|].
    split; [|done].
    exists a0, d0. split; [|split; [done|simpl; lia]].
    simpl. split; [done|]. eexists. split; [by simplify_map_eq|].
    split; [done|]. eexists. split; [by simplify_map_eq|done].
  - destruct c as [e xe]. rewrite last_fst_snoc in Hlast. subst l.
    apply lseg_snoc in Hl as [Hl He].
    apply notin_fst_app in Hfresh as [Hfresh Hae].
    apply notin_fst_cons in Hae as [Hae _].
    apply notin_fst_app in Ha0 as [Ha0 Ha0e].
    apply notin_fst_cons in Ha0e as [Ha0e _].
    apply NoDup_fst_app in Hnd as (_ & Hnd & _).
    assert (Hen : e ∉ cells.*1).
    { intros Hin. apply (Hnd e Hin). left. }
    eexists. split; [unfold push_front; mrun; fold a; mrun; reflexivity|].
    split; [|done].
    exists a0, d0. split; [|split].
    + cbn [heap m_first]. split; [done|].
      eexists. split; [by simplify_map_eq|].
      split; [done|]. eexists. split; [by simplify_map_eq|].
      apply lseg_snoc. split; [|by simplify_map_eq].
      by do 4 (apply lseg_frame; [done|]).
    + cbn [m_last]. rewrite app_comm_cons. by rewrite last_fst_snoc.
    + cbn [m_size]. rewrite Hsize. simpl. rewrite !length_app. simpl. lia.
Qed.

(** Taking the node after [p] out of a chain. *)
Lemma lseg_unlink (h : gmap loc (node T)) p0 front p dp b x qb post :
  lseg h p0 (front ++ [(p, dp)]) (Some b) →
  h !! b = Some (Node x qb) →
  lseg h qb post None →
  p ∉ front.*1 → p ∉ post.*1 →
  lseg (<[p := Node dp qb]> h) p0 (front ++ (p, dp) :: post) None.
Proof.
  intros Hf Hb Hp Hn1 Hn2. apply lseg_snoc in Hf as [Hf Hp0].
  apply lseg_app. exists (Some p). split; [by apply lseg_frame|].
  simpl. split; [done|]. exists qb. split; [by simplify_map_eq|].
  by apply lseg_frame.
Qed.

(** Putting a node [a] after [p] into a chain. *)
Lemma lseg_link (h : gmap loc (node T)) p0 front p dp q post a v :
  lseg h p0 (front ++ [(p, dp)]) q →
  lseg h q post None →
  a ∉ (front ++ (p, dp) :: post).*1 →
  p ∉ front.*1 → p ∉ post.*1 →
  lseg (<[a := Node v q]> (<[p := Node dp (Some a)]> h)) p0
       (front ++ (p, dp) :: (a, v) :: post) None.
Proof.
  intros Hf Hp Hna Hn1 Hn2. apply lseg_snoc in Hf as [Hf Hp0].
  apply notin_fst_app in Hna as [Hna1 Hna2].
  apply notin_fst_cons in Hna2 as [Hap Hna2].
  apply lseg_app. exists (Some p). split; [by do 2 (apply lseg_frame; [done|])|].
  simpl. split; [done|]. exists (Some a). split; [by simplify_map_eq|].
  split; [done|]. exists q. split; [by simplify_map_eq|].
  by do 2 (apply lseg_frame; [done|]).
Qed.

Lemma lseg_head (h : gmap loc (node T)) a cells q :
  cells ≠ [] → lseg h (Some a) cells q → ∃ x rest, cells = (a, x) :: rest.
Proof.
  destruct cells as [|[c x] rest]; [done|]. intros _ ([= <-] & _). eauto.
Qed.

(** [erase] once the scan has stopped at [p], the node before the one to
    remove. *)
Lemma erase_at h a0 e n x front p dp b qb post :
  let s := SList h (Some a0) (Some e) n in
  lseg h (Some a0) (front ++ [(p, dp)]) (Some b) →
  h !! b = Some (Node x qb) →
  lseg h qb post None →
  NoDup ((front ++ (p, dp) :: (b, x) :: post).*1) →
  last (b :: post.*1) = Some e →
  scan (S (size h)) x (Some a0) s = (Ok (Some p), s) →
  erase x s =
    (Ok (),
     SList (<[p := Node dp qb]> h) (Some a0)
       (match post with
        | [] => if decide (a0 = p) then None else Some p
        | _ => Some e
        end)
       (N.pred n)).
Proof.
  intros s Hf Hb Hp Hnd He Hscan. subst s.
  assert (Hne0 : front ++ [(p, dp)] ≠ []) by (by destruct front).
  destruct (lseg_head _ _ _ _ Hne0 Hf) as (d0 & rest & Hhead).
  apply lseg_snoc in Hf as [Hf Hhp].
  apply NoDup_fst_app in Hnd as (_ & Hdisj & Hnd).
  apply NoDup_fst_cons in Hnd as [Hpn Hnd].
  apply notin_fst_cons in Hpn as [Hpb Hpn].
  apply NoDup_fst_cons in Hnd as [Hbn _].
  assert (He' : e ∈ b :: post.*1) by by apply last_Some_elem_of.
  assert (Hpe : p ≠ e).
  { intros ->. apply elem_of_cons in He' as [?|?]; done. }
  unfold erase. munfold. rewrite Hscan. mrun.
  destruct post as [|[c y] post].
  - simpl in Hp. subst qb. simpl in He. injection He as <-.
    mrun. destruct (decide (a0 = p)) as [->|Hne]; by mrun.
  - simpl in Hp. destruct Hp as (-> & _).
    assert (Ha0e : a0 ≠ e).
    { destruct (decide (a0 = p)) as [->|Hne]; [done|].
      intros ->. destruct front as [|[a' d'] front]; simplify_eq/=.
      apply (Hdisj e); [left|]. right. exact He'. }
    by mrun.
Qed.

Lemma erase_found s x pre b post :
  repr s (pre ++ (b, x) :: post) → x ∉ pre.*2 →
  ∃ s', erase x s = (Ok (), s') ∧ repr s' (pre ++ post)
        ∧ m_first s' = m_first s.
Proof.
  intros Hr Hni. pose proof (repr_rounds _ _ Hr) as Hfuel.
  destruct Hr as (a0 & d0 & Hl & Hlast & Hsize).
  destruct s as [h f l n]. cbn [heap m_first m_last m_size] in *.
  pose proof (lseg_NoDup _ _ _ Hl) as Hnd.
  assert (f = Some a0) as -> by (by destruct Hl).
  rewrite fmap_app, fmap_cons, last_app_cons in Hlast. simpl in Hlast.
  destruct (last_cons_elem b (post.*1)) as (e & He & Hin).
  rewrite He in Hlast. subst l.
  rewrite length_app in Hfuel, Hsize. simpl in Hfuel, Hsize.
  assert (Hscan : scan (S (size h)) x (Some a0) (SList h (Some a0) (Some e) n)
                  = (Ok (last (a0 :: pre.*1)), SList h (Some a0) (Some e) n)).
  { apply (scan_found _ x b post e _ pre a0 d0); cbn [heap m_last];
      [done..|lia]. }
  rewrite app_comm_cons in Hl, Hnd.
  destruct pre as [|[p dp] pre _] using rev_ind.
  - simpl in Hscan.
    pose proof Hl as (_ & ? & Ha0 & -> & qb & Hb & Hpost).
    pose proof Hnd as Hnd0.
    apply NoDup_fst_cons in Hnd as [Ha0n Hnd'].
    apply notin_fst_cons in Ha0n as [? Ha0n].
    apply NoDup_fst_cons in Hnd' as [Hbn _].
    eexists. split.
    { apply (erase_at h a0 e n x [] a0 d0 b qb post); try done.
      simpl. eauto. }
    split; [|done]. exists a0, d0. cbn [heap m_first m_last m_size].
    split; [|split].
    + apply (lseg_unlink h (Some a0) [] a0 d0 b x qb post); try done.
      * simpl. eauto.
      * apply not_elem_of_nil.
    + simpl. destruct post; [|done]. by rewrite decide_True.
    + rewrite Hsize. simpl. lia.
  - rewrite fmap_app in Hscan. simpl in Hscan.
    rewrite app_comm_cons, last_snoc in Hscan.
    assert (Heq : ((a0, d0) :: pre ++ [(p, dp)]) ++ (b, x) :: post
                  = ((a0, d0) :: pre) ++ (p, dp) :: (b, x) :: post).
    { simpl. by rewrite <- app_assoc. }
    rewrite Heq in Hl, Hnd. clear Heq.
    pose proof Hl as Hl'. pose proof Hnd as Hnd'.
    apply lseg_app in Hl' as (r & Hfront & Hrest).
    simpl in Hrest. destruct Hrest as (-> & ? & Hp & -> & qb & Hb & Hpost).
    pose proof Hnd' as Hnd''.
    apply NoDup_fst_app in Hnd'' as (_ & Hdisj & Hnd'').
    apply NoDup_fst_cons in Hnd'' as [Hpn _].
    apply notin_fst_cons in Hpn as [_ Hpn].
    assert (Ha0p : a0 ≠ p).
    { intros ->. apply (Hdisj p); left. }
    assert (Hpf : p ∉ ((a0, d0) :: pre).*1).
    { intros Hin'. apply (Hdisj p Hin'). left. }
    eexists. split.
    { apply (erase_at h a0 e n x ((a0, d0) :: pre) p dp b qb post); try done.
      apply lseg_snoc. done. }
    split; [|done]. exists a0, d0. cbn [heap m_first m_last m_size].
    split; [|split].
    + rewrite <- app_assoc. simpl.
      apply (lseg_unlink h (Some a0) ((a0, d0) :: pre) p dp b x qb post);
        try done.
      apply lseg_snoc. done.
    + rewrite <- app_assoc. simpl. destruct post as [|c post].
      * rewrite decide_False by done. by rewrite last_fst_snoc.
      * rewrite fmap_app, fmap_cons, last_app_cons. simpl.
        rewrite fmap_cons in He. simpl in He. done.
    + rewrite Hsize, !length_app. simpl. lia.
Qed.

Lemma erase_absent s x cells :
  repr s cells → cells ≠ [] → x ∉ cells.*2 →
  erase x s = (Throw ValueNotFound, s).
Proof.
  intros Hr Hne Hni. pose proof (repr_rounds _ _ Hr) as Hfuel.
  pose proof (proj1 (repr_empty _ _ Hr)) as Hemp.
  destruct Hr as (a0 & d0 & Hl & Hlast & Hsize).
  destruct s as [h f l n]. cbn [heap m_first m_last m_size] in *.
  assert (f = Some a0) as -> by (by destruct Hl).
  assert (Hlast' : l = last (a0 :: cells.*1)).
  { rewrite Hlast. destruct cells as [|[c y] cells]; [done|]. done. }
  assert (Hscan : scan (S (size h)) x (Some a0) (SList h (Some a0) l n)
                  = (Ok l, SList h (Some a0) l n)).
  { apply (scan_absent (SList h (Some a0) l n) x _ cells a0 d0);
      cbn [heap m_last]; [done..|lia]. }
  destruct l as [e|]; [|by destruct Hne; apply Hemp].
  unfold erase. munfold. rewrite Hscan. by mrun.
Qed.

Lemma erase_empty s x : repr s [] → erase x s = (Throw EmptyContainer, s).
Proof.
  intros (a0 & d0 & Hl & Hlast & Hsize). unfold erase. munfold.
  rewrite Hlast. done.
Qed.

(** The last node of a non-empty front links to what follows it. *)
Lemma lseg_front_last (h : gmap loc (node T)) p0 front b :
  front ≠ [] → lseg h p0 front (Some b) →
  ∃ p np, last (front.*1) = Some p ∧ h !! p = Some np ∧ m_next np = Some b.
Proof.
  destruct front as [|[p dp] front _] using rev_ind; [done|].
  intros _ [_ Hp]%lseg_snoc. exists p, (Node dp (Some b)).
  by rewrite last_fst_snoc.
Qed.

(** [insert_after] once the scan has stopped at [p], the node before the
    one that holds [pos]. *)
Lemma insert_after_at (h : gmap loc (node T)) a0 e n (pos v : T) p np b qb :
  let s := SList h (Some a0) (Some e) n in
  let a := fresh (dom h) in
  h !! p = Some np → m_next np = Some b →
  h !! b = Some (Node pos qb) →
  (b = e → qb = None) →
  p ≠ e →
  scan (S (size h)) pos (Some a0) s = (Ok (Some p), s) →
  insert_after pos v s =
    (Ok (),
     SList (<[a := Node v qb]>
              (<[b := Node pos (Some a)]> (<[a := Node v None]> h)))
       (Some a0) (if decide (b = e) then Some a else Some e) (n + 1)).
Proof.
  intros s a Hp Hnp Hb Hbe Hpe Hscan. subst s.
  assert (Hab : a ≠ b).
  { intros Heq. assert (Hd : b ∈ dom h) by (apply elem_of_dom; eauto).
    rewrite <- Heq in Hd. by apply is_fresh in Hd. }
  unfold insert_after. munfold. rewrite Hscan. mrun. rewrite Hnp.
  fold a. destruct (decide (b = e)) as [->|Hne].
  - rewrite (Hbe eq_refl). by mrun.
  - by mrun.
Qed.

Lemma insert_after_found s pos v pre b post :
  repr s (pre ++ (b, pos) :: post) → pos ∉ pre.*2 →
  ∃ a s', insert_after pos v s = (Ok (), s')
          ∧ repr s' (pre ++ (b, pos) :: (a, v) :: post)
          ∧ m_first s' = m_first s.
Proof.
  intros Hr Hni. pose proof (repr_rounds _ _ Hr) as Hfuel.
  destruct Hr as (a0 & d0 & Hl & Hlast & Hsize).
  destruct s as [h f l n]. cbn [heap m_first m_last m_size] in *.
  pose proof (lseg_NoDup _ _ _ Hl) as Hnd.
  pose proof (lseg_fresh _ _ _ Hl) as Hfresh.
  set (a := fresh (dom h)) in *.
  assert (f = Some a0) as -> by (by destruct Hl).
  rewrite fmap_app, fmap_cons, last_app_cons in Hlast. simpl in Hlast.
  destruct (last_cons_elem b (post.*1)) as (e & He & Hin).
  rewrite He in Hlast. subst l.
  rewrite length_app in Hfuel, Hsize. simpl in Hfuel, Hsize.
  assert (Hscan : scan (S (size h)) pos (Some a0) (SList h (Some a0) (Some e) n)
                  = (Ok (last (a0 :: pre.*1)), SList h (Some a0) (Some e) n)).
  { apply (scan_found _ pos b post e _ pre a0 d0); cbn [heap m_last];
      [done..|lia]. }
  rewrite app_comm_cons in Hl, Hnd, Hfresh.
  pose proof Hl as Hl'. apply lseg_app in Hl' as (r & Hfront & Hrest).
  simpl in Hrest. destruct Hrest as (-> & qb & Hb & Hpost).
  assert (Hfne : (a0, d0) :: pre ≠ []) by done.
  destruct (lseg_front_last _ _ _ _ Hfne Hfront)
    as (p & np & Hlp & Hp & Hnp).
  change (((a0, d0) :: pre).*1) with (a0 :: pre.*1) in Hlp.
  rewrite Hlp in Hscan.
  pose proof Hnd as Hnd'.
  apply NoDup_fst_app in Hnd' as (_ & Hdisj & Hnd').
  apply NoDup_fst_cons in Hnd' as [Hbn _].
  assert (Hpe : p ≠ e).
  { intros ->. apply (Hdisj e); [|done].
    apply last_Some_elem_of in Hlp. done. }
  assert (Hbe : b = e → qb = None).
  { intros ->. destruct post as [|[c y] post]; [done|].
    rewrite fmap_cons in He. simpl in He.
    apply last_Some_elem_of in He. done. }
  assert (Hbf : b ∉ ((a0, d0) :: pre).*1).
  { intros Hin'. apply (Hdisj b Hin'). left. }
  exists a. eexists. split.
  { by apply (insert_after_at h a0 e n pos v p np b qb). }
  split; [|done]. exists a0, d0. cbn [heap m_first m_last m_size].
  split; [|split].
  - rewrite app_comm_cons.
    apply (lseg_link _ (Some a0) ((a0, d0) :: pre) b pos qb post a v);
      try done.
    + apply lseg_snoc. split.
      * apply lseg_frame; [|done]. by apply notin_fst_app in Hfresh as [? _].
      * apply notin_fst_app in Hfresh as [_ Hfresh].
        apply notin_fst_cons in Hfresh as [? _]. by simplify_map_eq.
    + apply lseg_frame; [|done]. apply notin_fst_app in Hfresh as [_ Hfresh].
      by apply notin_fst_cons in Hfresh as [_ ?].
  - rewrite fmap_app, !fmap_cons, last_app_cons. simpl.
    destruct post as [|[c y] post].
    + simpl in He. injection He as <-. by rewrite decide_True.
    + rewrite fmap_cons in He, Hbn. simpl in He.
      rewrite decide_False; [done|].
      intros ->. apply last_Some_elem_of in He. done.
  - rewrite Hsize, !length_app. simpl. lia.
Qed.

Lemma insert_after_absent s pos v cells :
  repr s cells → cells ≠ [] → pos ∉ cells.*2 →
  insert_after pos v s = (Throw ValueNotFound, s).
Proof.
  intros Hr Hne Hni. pose proof (repr_rounds _ _ Hr) as Hfuel.
  pose proof (proj1 (repr_empty _ _ Hr)) as Hemp.
  destruct Hr as (a0 & d0 & Hl & Hlast & Hsize).
  destruct s as [h f l n]. cbn [heap m_first m_last m_size] in *.
  assert (f = Some a0) as -> by (by destruct Hl).
  assert (Hlast' : l = last (a0 :: cells.*1)).
  { rewrite Hlast. destruct cells as [|[c y] cells]; [done|]. done. }
  assert (Hscan : scan (S (size h)) pos (Some a0) (SList h (Some a0) l n)
                  = (Ok l, SList h (Some a0) l n)).
  { apply (scan_absent (SList h (Some a0) l n) pos _ cells a0 d0);
      cbn [heap m_last]; [done..|lia]. }
  destruct l as [e|]; [|by destruct Hne; apply Hemp].
  unfold insert_after. munfold. rewrite Hscan. by mrun.
Qed.

Lemma insert_after_empty s pos v :
  repr s [] → insert_after pos v s = (Throw EmptyContainer, s).
Proof.
  intros (a0 & d0 & Hl & Hlast & Hsize). unfold insert_after. munfold.
  rewrite Hlast. done.
Qed.

Lemma clear_spec s cells :
  repr s cells →
  ∃ a0 d0 q, m_first s = Some a0
    ∧ heap s !! a0 = Some (Node d0 q)
    ∧ clear s = (Ok (), SList (<[a0 := Node d0 None]> (heap s)) (Some a0) None 0).
Proof.
  intros Hr. pose proof (repr_rounds _ _ Hr) as Hfuel.
  destruct Hr as (a0 & d0 & Hl & _).
  pose proof (lseg_NoDup _ _ _ Hl) as Hnd.
  apply NoDup_fst_cons in Hnd as [Hn _].
  destruct s as [h f l n]. cbn [heap m_first m_last m_size] in *.
  destruct Hl as (-> & q & Ha0 & Hl).
  exists a0, d0, q. split; [done|]. split; [done|].
  unfold clear. munfold.
  rewrite (clear_loop_spec cells h a0 d0 q l n); [done..|lia].
Qed.

Lemma cleared_repr (h : gmap loc (node T)) a0 d0 :
  repr (SList (<[a0 := Node d0 None]> h) (Some a0) None 0) [].
Proof.
  exists a0, d0. split; [|done]. simpl. split; [done|].
  exists None. by rewrite lookup_insert_eq.
Qed.

(** What the scan finds in a well-formed list that holds [x]. *)
Lemma scan_repr_found s x pre b post :
  repr s (pre ++ (b, x) :: post) → x ∉ pre.*2 →
  ∃ a0 e p np,
    m_first s = Some a0 ∧ m_last s = Some e
    ∧ scan (S (size (heap s))) x (Some a0) s = (Ok (Some p), s)
    ∧ p ≠ e ∧ heap s !! p = Some np ∧ m_next np = Some b.
Proof.
  intros Hr Hni. pose proof (repr_rounds _ _ Hr) as Hfuel.
  destruct Hr as (a0 & d0 & Hl & Hlast & Hsize).
  pose proof (lseg_NoDup _ _ _ Hl) as Hnd.
  assert (Hf : m_first s = Some a0) by (by destruct Hl).
  rewrite Hf in Hl.
  rewrite fmap_app, fmap_cons, last_app_cons in Hlast. simpl in Hlast.
  destruct (last_cons_elem b (post.*1)) as (e & He & Hin).
  rewrite He in Hlast.
  rewrite length_app in Hfuel. simpl in Hfuel.
  assert (Hscan : scan (S (size (heap s))) x (Some a0) s
                  = (Ok (last (a0 :: pre.*1)), s)).
  { apply (scan_found _ x b post e _ pre a0 d0); [done..|lia]. }
  rewrite app_comm_cons in Hl, Hnd.
  apply lseg_app in Hl as (r & Hfront & Hrest).
  simpl in Hrest. destruct Hrest as (-> & _).
  assert (Hfne : (a0, d0) :: pre ≠ []) by done.
  destruct (lseg_front_last _ _ _ _ Hfne Hfront)
    as (p & np & Hlp & Hp & Hnp).
  change (((a0, d0) :: pre).*1) with (a0 :: pre.*1) in Hlp.
  rewrite Hlp in Hscan.
  apply NoDup_fst_app in Hnd as (_ & Hdisj & _).
  exists a0, e, p, np. split_and!; try done.
  intros ->. apply (Hdisj e); [|done].
  apply last_Some_elem_of in Hlp. done.
Qed.

Lemma find_found s x pre b post :
  repr s (pre ++ (b, x) :: post) → x ∉ pre.*2 →
  find x s = (Ok (Some b), s).
Proof.
  intros Hr Hni.
  destruct (scan_repr_found _ _ _ _ _ Hr Hni)
    as (a0 & e & p & np & Hf & Hl & Hscan & Hpe & Hp & Hnp).
  unfold find. mrun. rewrite Hscan. mrun. by rewrite Hnp.
Qed.

Lemma find_absent s x cells :
  repr s cells → cells ≠ [] → x ∉ cells.*2 → find x s = (Ok None, s).
Proof.
  intros Hr Hne Hni. pose proof (repr_rounds _ _ Hr) as Hfuel.
  pose proof (proj1 (repr_empty _ _ Hr)) as Hemp.
  destruct Hr as (a0 & d0 & Hl & Hlast & Hsize).
  destruct s as [h f l n]. cbn [heap m_first m_last m_size] in *.
  assert (f = Some a0) as -> by (by destruct Hl).
  assert (Hlast' : l = last (a0 :: cells.*1)).
  { rewrite Hlast. destruct cells as [|[c y] cells]; [done|]. done. }
  assert (Hscan : scan (S (size h)) x (Some a0) (SList h (Some a0) l n)
                  = (Ok l, SList h (Some a0) l n)).
  { apply (scan_absent (SList h (Some a0) l n) x _ cells a0 d0);
      cbn [heap m_last]; [done..|lia]. }
  destruct l as [e|]; [|by destruct Hne; apply Hemp].
  unfold find. munfold. rewrite Hscan. by mrun.
Qed.

Lemma find_empty s x : repr s [] → find x s = (Throw EmptyContainer, s).
Proof.
  intros (a0 & d0 & Hl & Hlast & Hsize). unfold find. munfold.
  rewrite Hlast. done.
Qed.

Lemma front_spec s b x rest : repr s ((b, x) :: rest) → front s = (Ok x, s).
Proof.
  intros (a0 & d0 & Hl & Hlast & _).
  destruct Hl as (Hf & q & Ha0 & -> & q' & Hb & _).
  destruct (last_cons_elem b (rest.*1)) as (e & He & _).
  rewrite fmap_cons in Hlast. simpl in Hlast. rewrite He in Hlast.
  unfold front. by mrun.
Qed.

Lemma back_spec s cells b x : repr s (cells ++ [(b, x)]) → back s = (Ok x, s).
Proof.
  intros (a0 & d0 & Hl & Hlast & _).
  rewrite app_comm_cons in Hl. apply lseg_snoc in Hl as [_ Hb].
  rewrite last_fst_snoc in Hlast.
  unfold back. by mrun.
Qed.

Lemma front_empty s : repr s [] → front s = (Throw EmptyContainer, s).
Proof.
  intros (a0 & d0 & _ & Hlast & _). unfold front. munfold. by rewrite Hlast.
Qed.

Lemma back_empty s : repr s [] → back s = (Throw EmptyContainer, s).
Proof.
  intros (a0 & d0 & _ & Hlast & _). unfold back. munfold. by rewrite Hlast.
Qed.

Lemma begin_spec s cells :
  repr s cells → begin_ s = (Ok (Iterator (head (cells.*1))), s).
Proof.
  intros (a0 & d0 & Hl & _). destruct Hl as (Hf & q & Ha0 & Hl).
  unfold begin_. mrun.
  destruct cells as [|[c y] cells]; simpl in Hl.
  - by subst q.
  - by destruct Hl as (-> & _).
Qed.

Lemma end_nonempty s cells :
  repr s cells → cells ≠ [] → end_ s = (Ok (Iterator None), s).
Proof.
  intros (a0 & d0 & Hl & Hlast & _) Hne.
  destruct cells as [|[b x] cells _] using rev_ind; [done|].
  rewrite app_comm_cons in Hl. apply lseg_snoc in Hl as [_ Hb].
  rewrite last_fst_snoc in Hlast.
  unfold end_. by mrun.
Qed.

Lemma end_empty s : m_last s = None → end_ s = (Undefined, s).
Proof. intros Hlast. unfold end_. munfold. by rewrite Hlast. Qed.

Lemma traversal_spec s cells : repr s cells → traversal s = (Ok (cells.*2), s).
Proof.
  intros Hr. pose proof (repr_rounds _ _ Hr) as Hfuel.
  pose proof (begin_spec _ _ Hr) as Hb.
  destruct Hr as (a0 & d0 & Hl & _). destruct Hl as (Hf & q & Ha0 & Hl).
  assert (Hq : q = head (cells.*1)).
  { destruct cells as [|[c y] cells]; simpl in Hl; [done|].
    by destruct Hl as (-> & _). }
  unfold traversal, bind. rewrite Hb. munfold.
  rewrite <- Hq.
  rewrite (walk_spec cells (heap s) q); [done|done|lia].
Qed.

Lemma range_for_spec s cells :
  repr s cells → cells ≠ [] → range_for s = (Ok (cells.*2), s).
Proof.
  intros Hr Hne. pose proof (repr_rounds _ _ Hr) as Hfuel.
  pose proof (begin_spec _ _ Hr) as Hb.
  pose proof (end_nonempty _ _ Hr Hne) as He.
  destruct Hr as (a0 & d0 & Hl & _). destruct Hl as (Hf & q & Ha0 & Hl).
  assert (Hq : q = head (cells.*1)).
  { destruct cells as [|[c y] cells]; simpl in Hl; [done|].
    by destruct Hl as (-> & _). }
  unfold range_for, bind. rewrite Hb, He. munfold.
  rewrite <- Hq.
  rewrite (walk_spec cells (heap s) q); [done|done|lia].
Qed.

(** The first cell that holds [x]. *)
Lemma first_split x cells :
  x ∈ cells.*2 →
  ∃ pre b post, cells = pre ++ (b, x) :: post ∧ x ∉ pre.*2.
Proof.
  induction cells as [|[c y] cells IH]; intros Hin.
  - by apply elem_of_nil in Hin.
  - destruct (decide (y = x)) as [->|Hne].
    + exists [], c, cells. split; [done|]. apply not_elem_of_nil.
    + rewrite fmap_cons in Hin. apply elem_of_cons in Hin as [Heq|Hin];
        [by destruct Hne|].
      destruct (IH Hin) as (pre & b & post & -> & Hni).
      exists ((c, y) :: pre), b, post. split; [done|].
      rewrite fmap_cons. apply not_elem_of_cons. done.
Qed.

Lemma remove_first_split x (pre post : list T) :
  x ∉ pre → remove_first x (pre ++ x :: post) = pre ++ post.
Proof.
  induction pre as [|y pre IH]; intros Hni; simpl.
  - by rewrite decide_True.
  - apply not_elem_of_cons in Hni as [Hne Hni].
    rewrite decide_False by done. by rewrite IH.
Qed.

Lemma occurrences_elem x (l : list T) : occurrences x l = 1 → x ∈ l.
Proof.
  unfold occurrences. intros Hocc.
  destruct (filter (λ y, y = x) l) as [|y r] eqn:Hf; [done|].
  assert (Hin : y ∈ filter (λ y, y = x) l) by (rewrite Hf; left).
  apply list_elem_of_filter in Hin as [-> ?]. done.
Qed.

Lemma push_back_all_spec args s cells :
  repr s cells →
  ∃ s' cells', push_back_all args s = (Ok (), s') ∧ repr s' cells'
               ∧ cells'.*2 = cells.*2 ++ args ∧ m_first s' = m_first s.
Proof.
  revert s cells. induction args as [|v args IH]; intros s cells Hr.
  - exists s, cells. by rewrite app_nil_r.
  - destruct (push_back_spec s cells v Hr) as (a & s1 & Hpb & Hr1 & Hf1).
    destruct (IH s1 _ Hr1) as (s' & cells' & Hall & Hr' & Hv & Hf').
    exists s', cells'. split_and!; [|done| |congruence].
    + simpl. unfold bind. by rewrite Hpb.
    + rewrite Hv, fmap_app. simpl. by rewrite <- app_assoc.
Qed.

Lemma init_repr (T_default : T) args :
  ∃ cells, repr (s_list_init T_default args) cells ∧ cells.*2 = args.
Proof.
  destruct (push_back_all_spec args _ _ (ctor_repr T_default))
    as (s' & cells' & Hall & Hr & Hv & _).
  exists cells'. unfold s_list_init. rewrite Hall. done.
Qed.

(** Every public operation keeps the representation invariant. *)
Lemma exec_repr o s cells : repr s cells → ∃ cells', repr (exec o s) cells'.
Proof.
  intros Hr. destruct o as [v|v|x|pos v| |x| | | | | | ]; simpl.
  - destruct (push_back_spec s cells v Hr) as (a & s' & -> & ? & _). eauto.
  - destruct (push_front_spec s cells v Hr) as (a & s' & -> & ? & _). eauto.
  - destruct (decide (x ∈ cells.*2)) as [Hin|Hni].
    + destruct (first_split _ _ Hin) as (pre & b & post & -> & Hn).
      destruct (erase_found s x pre b post Hr Hn) as (s' & -> & ? & _). eauto.
    + destruct cells as [|c cells].
      * rewrite (erase_empty s x Hr). eauto.
      * rewrite (erase_absent s x _ Hr); eauto.
  - destruct (decide (pos ∈ cells.*2)) as [Hin|Hni].
    + destruct (first_split _ _ Hin) as (pre & b & post & -> & Hn).
      destruct (insert_after_found s pos v pre b post Hr Hn)
        as (a & s' & -> & ? & _). eauto.
    + destruct cells as [|c cells].
      * rewrite (insert_after_empty s pos v Hr). eauto.
      * rewrite (insert_after_absent s pos v _ Hr); eauto.
  - destruct (clear_spec s cells Hr) as (a0 & d0 & q & _ & _ & ->).
    exists []. apply cleared_repr.
  - destruct (decide (x ∈ cells.*2)) as [Hin|Hni].
    + destruct (first_split _ _ Hin) as (pre & b & post & -> & Hn).
      rewrite (find_found s x pre b post Hr Hn). eauto.
    + destruct cells as [|c cells].
      * rewrite (find_empty s x Hr). eauto.
      * rewrite (find_absent s x _ Hr); eauto.
  - destruct cells as [|[b x] cells].
    + rewrite (front_empty s Hr). eauto.
    + rewrite (front_spec s b x cells Hr). eauto.
  - destruct cells as [|[b x] cells _] using rev_ind.
    + rewrite (back_empty s Hr). eauto.
    + rewrite (back_spec s cells b x Hr). eauto.
  - rewrite (begin_spec s cells Hr). eauto.
  - destruct cells as [|c cells].
    + rewrite (end_empty s); [eauto|]. by apply (repr_empty s []).
    + rewrite (end_nonempty s _ Hr); eauto.
  - eauto.
  - eauto.
Qed.

Lemma reachable_repr (T_default : T) allowed s :
  reachable T_default allowed s → ∃ cells, repr s cells.
Proof.
  induction 1 as [|args|o s _ _ [cells Hr]].
  - exists []. apply ctor_repr.
  - destruct (init_repr T_default args) as (cells & ? & _). eauto.
  - by apply (exec_repr o s cells).
Qed.

End Operations.

Section Atomicity.
Context {T : Type} `{EqDecision T}.
Implicit Types (s : s_list T).

#[local] Arguments scan : simpl never.

(** A throwing [erase] leaves the list as it was, whatever the list. *)
Lemma erase_throw_state s x e s' : erase x s = (Throw e, s') → s' = s.
Proof.
  unfold erase. munfold. destruct (m_last s) as [el|] eqn:Hlast; simpl;
    [|by intros [= _ <-]].
  pose proof (scan_state (S (size (heap s))) x (m_first s) s) as Hst.
  destruct (scan (S (size (heap s))) x (m_first s) s) as [[t| |] s1] eqn:Hscan;
    simpl in Hst; subst s1; [|by intros [= _ <-]|done].
  rewrite Hlast. case_bool_decide as Ht; simpl; [by intros [= _ <-]|].
  destruct (scan_stop _ _ _ _ _ _ Hscan) as (a & n & b & nb & -> & Ha & Hn & Hb & _);
    [by rewrite Hlast|].
  destruct n as [dn qn], nb as [dnb qnb]. simpl in Hn. subst qn.
  mrun. repeat (case_bool_decide; simpl); done.
Qed.

(** A throwing [insert_after] leaves the list as it was. *)
Lemma insert_after_throw_state s pos v e s' :
  insert_after pos v s = (Throw e, s') → s' = s.
Proof.
  unfold insert_after. munfold. destruct (m_last s) as [el|] eqn:Hlast; simpl;
    [|by intros [= _ <-]].
  pose proof (scan_state (S (size (heap s))) pos (m_first s) s) as Hst.
  destruct (scan (S (size (heap s))) pos (m_first s) s) as [[t| |] s1] eqn:Hscan;
    simpl in Hst; subst s1; [|by intros [= _ <-]|done].
  rewrite Hlast. case_bool_decide as Ht; simpl; [by intros [= _ <-]|].
  destruct (scan_stop _ _ _ _ _ _ Hscan) as (a & n & b & nb & -> & Ha & Hn & Hb & _);
    [by rewrite Hlast|].
  destruct n as [dn qn], nb as [dnb qnb]. simpl in Hn. subst qn.
  assert (Hfb : fresh (dom (heap s)) ≠ b).
  { intros Heq. assert (Hd : b ∈ dom (heap s)) by (apply elem_of_dom; eauto).
    rewrite <- Heq in Hd. by apply is_fresh in Hd. }
  mrun. case_bool_decide as Hbl; simpl.
  - injection Hbl as ->. by mrun.
  - by mrun.
Qed.

End Atomicity.

(** * The properties of the specification *)

Section Claims.
Context {T : Type} `{EqDecision T}.
Implicit Types (s : s_list T) (cells pre post : list (loc * T)).

Lemma empty_repr s cells :
  repr s cells → empty s = (Ok (bool_decide (cells = [])), s).
Proof.
  intros Hr. unfold empty. f_equal. f_equal. apply bool_decide_ext.
  by apply repr_empty.
Qed.

Lemma size_repr s cells :
  repr s cells → size_ s = (Ok (N.of_nat (length cells)), s).
Proof. intros (a0 & d0 & _ & _ & Hsz). unfold size_. by rewrite Hsz. Qed.

(** C1 (the defect).  On a list for which [empty()] holds, [end()] does not
    return the end-of-sequence iterator, nor any iterator: it calls
    [next()] through the null [m_last], which has no defined behaviour. *)
Theorem end_of_empty_list_undefined s :
  empty s = (Ok true, s) → fst (end_ s) = Undefined.
Proof.
  unfold empty. intros [= Hb]. apply bool_decide_eq_true_1 in Hb.
  by rewrite (end_empty s Hb).
Qed.

(** C2.  On a list that holds [x] exactly once, [erase x] returns, the
    size drops by one and the traversal is the former one without the
    first [x]; on a non-empty list without [x] it throws ValueNotFound; on
    the empty list it throws EmptyContainer. *)
Theorem erase_correct s cells x :
  repr s cells →
  traversal s = (Ok (cells.*2), s)
  ∧ (occurrences x (cells.*2) = 1 →
     ∃ s' n, erase x s = (Ok (), s')
       ∧ size_ s = (Ok (n + 1)%N, s) ∧ size_ s' = (Ok n, s')
       ∧ traversal s' = (Ok (remove_first x (cells.*2)), s'))
  ∧ (cells ≠ [] → x ∉ cells.*2 → erase x s = (Throw ValueNotFound, s))
  ∧ (cells = [] → erase x s = (Throw EmptyContainer, s)).
Proof.
  intros Hr. split_and!.
  - by apply traversal_spec.
  - intros Hocc. apply occurrences_elem in Hocc.
    destruct (first_split _ _ Hocc) as (pre & b & post & -> & Hn).
    destruct (erase_found s x pre b post Hr Hn) as (s' & He & Hr' & _).
    exists s', (N.of_nat (length (pre ++ post))). split_and!.
    + done.
    + rewrite (size_repr _ _ Hr). do 2 f_equal.
      rewrite !length_app. simpl. lia.
    + by apply size_repr.
    + rewrite (traversal_spec _ _ Hr'). do 2 f_equal.
      rewrite !fmap_app, fmap_cons. simpl. by rewrite remove_first_split.
  - by apply erase_absent.
  - intros ->. by apply erase_empty.
Qed.

(** C3.  On a non-empty list that holds [x], [find x] returns the pointer
    to the first node whose element is [x]; on a non-empty list without
    [x] it returns the null pointer; on the empty list it throws
    EmptyContainer.  The list is left as it was. *)
Theorem find_correct s cells x :
  repr s cells →
  (x ∈ cells.*2 →
     ∃ pre b post, cells = pre ++ (b, x) :: post ∧ (x ∉ pre.*2)
       ∧ find x s = (Ok (Some b), s)
       ∧ node_get (heap s) (Some b) = Ok x)
  ∧ (cells ≠ [] → x ∉ cells.*2 → find x s = (Ok None, s))
  ∧ (cells = [] → find x s = (Throw EmptyContainer, s)).
Proof.
  intros Hr. split_and!.
  - intros Hin. destruct (first_split _ _ Hin) as (pre & b & post & -> & Hn).
    exists pre, b, post. split_and!; [done|done|by apply (find_found s x pre b post)|].
    destruct Hr as (a0 & d0 & Hl & _). rewrite app_comm_cons in Hl.
    apply lseg_app in Hl as (r & _ & Hl). simpl in Hl.
    destruct Hl as (_ & q & Hb & _). simpl. by rewrite Hb.
  - by apply find_absent.
  - intros ->. by apply find_empty.
Qed.

(** C4.  On a list that holds [pos], [insert_after pos v] puts a new node
    with [v] right after the first node that holds [pos], the size grows by
    one, the other nodes keep their order, and when that node was the tail
    the new node is the tail; on a non-empty list without [pos] it throws
    ValueNotFound; on the empty list it throws EmptyContainer. *)
Theorem insert_after_correct s cells pos v :
  repr s cells →
  (pos ∈ cells.*2 →
     ∃ pre b post a s', cells = pre ++ (b, pos) :: post ∧ (pos ∉ pre.*2)
       ∧ insert_after pos v s = (Ok (), s')
       ∧ repr s' (pre ++ (b, pos) :: (a, v) :: post)
       ∧ traversal s = (Ok (pre.*2 ++ pos :: post.*2), s)
       ∧ traversal s' = (Ok (pre.*2 ++ pos :: v :: post.*2), s')
       ∧ size_ s' = (Ok (m_size s + 1)%N, s')
       ∧ (post = [] → m_last s' = Some a ∧ back s' = (Ok v, s')))
  ∧ (cells ≠ [] → pos ∉ cells.*2 →
     insert_after pos v s = (Throw ValueNotFound, s))
  ∧ (cells = [] → insert_after pos v s = (Throw EmptyContainer, s)).
Proof.
  intros Hr. split_and!.
  - intros Hin. destruct (first_split _ _ Hin) as (pre & b & post & -> & Hn).
    destruct (insert_after_found s pos v pre b post Hr Hn)
      as (a & s' & Hins & Hr' & _).
    exists pre, b, post, a, s'. split_and!; try done.
    + rewrite (traversal_spec _ _ Hr). by rewrite fmap_app, fmap_cons.
    + rewrite (traversal_spec _ _ Hr'). by rewrite fmap_app, !fmap_cons.
    + rewrite (size_repr _ _ Hr'). destruct Hr as (_ & _ & _ & _ & ->).
      do 2 f_equal. rewrite !length_app. simpl. lia.
    + intros ->. split.
      * destruct Hr' as (_ & _ & _ & -> & _).
        change (pre ++ [(b, pos); (a, v)]) with (pre ++ [(b, pos)] ++ [(a, v)]).
        by rewrite app_assoc, last_fst_snoc.
      * apply (back_spec s' (pre ++ [(b, pos)]) a v).
        by rewrite <- app_assoc.
  - by apply insert_after_absent.
  - intros ->. by apply insert_after_empty.
Qed.

(** C5.  When [erase] or [insert_after] throws, the list afterwards is the
    list before: same size, same traversal, same front and back. *)
Theorem failed_mutation_changes_nothing s s' e :
  (∃ x, erase x s = (Throw e, s'))
  ∨ (∃ pos v, insert_after pos v s = (Throw e, s')) →
  s' = s
  ∧ fst (size_ s') = fst (size_ s)
  ∧ fst (traversal s') = fst (traversal s)
  ∧ fst (front s') = fst (front s)
  ∧ fst (back s') = fst (back s).
Proof.
  intros Hthrow. assert (s' = s) as ->; [|done].
  destruct Hthrow as [[x Hx]|(pos & v & Hi)].
  - by apply erase_throw_state in Hx.
  - by apply insert_after_throw_state in Hi.
Qed.

(** C6.  In a list obtained from a constructor by push_back, push_front,
    erase, insert_after and clear, when the list is not empty, [front()] is
    the first element of the traversal and [back()] the last. *)
Theorem tail_consistency (T_default : T) s :
  reachable T_default mutator s →
  empty s = (Ok false, s) →
  ∃ vs x y,
    traversal s = (Ok vs, s) ∧ head vs = Some x ∧ last vs = Some y
    ∧ front s = (Ok x, s) ∧ back s = (Ok y, s).
Proof.
  intros [cells Hr]%reachable_repr Hne.
  rewrite (empty_repr _ _ Hr) in Hne. injection Hne as Hne.
  apply bool_decide_eq_false_1 in Hne.
  destruct cells as [|[b x] rest]; [done|].
  pose proof (front_spec _ _ _ _ Hr) as Hfront.
  destruct (exists_last Hne) as (cells' & [c y] & Heq).
  rewrite Heq in Hr.
  exists (((b, x) :: rest).*2), x, y. split_and!.
  - rewrite Heq. by apply traversal_spec.
  - done.
  - rewrite Heq, fmap_app. simpl. apply last_snoc.
  - done.
  - by apply (back_spec s cells' c y).
Qed.

Lemma repr_I3 s cells : repr s cells → I3 s.
Proof.
  intros Hr. pose proof (repr_empty _ _ Hr) as Hemp.
  destruct Hr as (a0 & d0 & Hl & Hlast & Hsz). split.
  - rewrite Hemp, Hsz. destruct cells; simpl; split; (done || lia).
  - intros a Ha. rewrite Hlast in Ha.
    destruct cells as [|[b x] cells _] using rev_ind; [done|].
    rewrite last_fst_snoc in Ha. injection Ha as ->.
    rewrite app_comm_cons in Hl. apply lseg_snoc in Hl as [Hl Hb].
    eauto.
Qed.

(** On a list that is not empty [end()] is the end-of-sequence iterator,
    and [begin()] differs from it. *)
Lemma begin_end_nonempty s cells :
  repr s cells → cells ≠ [] →
  ∃ b, begin_ s = (Ok b, s) ∧ end_ s = (Ok iterator_default, s)
       ∧ iter_eq b iterator_default = false.
Proof.
  intros Hr Hne. eexists. split; [by apply begin_spec|].
  split; [by apply (end_nonempty s cells)|].
  destruct cells as [|[c y] cells]; [done|]. done.
Qed.

(** C7.  In every reachable list, [empty()] is true exactly when [size()]
    is 0 and changes nothing, and I3 holds, before and after any public
    operation. *)
Theorem empty_iff_size_zero (T_default : T) s :
  reachable T_default any_op s →
  (fst (empty s) = Ok true ↔ fst (size_ s) = Ok 0%N)
  ∧ snd (empty s) = s
  ∧ I3 s
  ∧ ∀ o, I3 (exec o s).
Proof.
  intros [cells Hr]%reachable_repr.
  pose proof (repr_I3 _ _ Hr) as HI3. split_and!.
  - destruct HI3 as [Hiff _]. unfold empty, size_. simpl. split.
    + intros [= Hb]. apply bool_decide_eq_true_1 in Hb. f_equal. by apply Hiff.
    + intros [= Hz]. f_equal. apply bool_decide_eq_true_2. by apply Hiff.
  - done.
  - done.
  - intros o. destruct (exec_repr o s cells Hr) as (cells' & Hr').
    by apply (repr_I3 _ cells').
Qed.

(** C8.  Pushing [v1..vn] in order with push_back onto an empty list, or
    building the list from that sequence, gives a list whose traversal is
    [v1..vn] and whose size is [n]. *)
Theorem push_back_order (T_default : T) s vs :
  repr s [] →
  (∃ s', push_back_all vs s = (Ok (), s')
     ∧ traversal s' = (Ok vs, s')
     ∧ size_ s' = (Ok (N.of_nat (length vs)), s'))
  ∧ traversal (s_list_init T_default vs)
    = (Ok vs, s_list_init T_default vs)
  ∧ size_ (s_list_init T_default vs)
    = (Ok (N.of_nat (length vs)), s_list_init T_default vs).
Proof.
  intros Hr. split_and!.
  - destruct (push_back_all_spec vs s [] Hr) as (s' & cells' & Hall & Hr' & Hv & _).
    simpl in Hv. exists s'. split_and!; [done| |].
    + rewrite (traversal_spec _ _ Hr'). by rewrite Hv.
    + rewrite (size_repr _ _ Hr'). by rewrite <- Hv, length_fmap.
  - destruct (init_repr T_default vs) as (cells & Hr' & Hv).
    rewrite (traversal_spec _ _ Hr'). by rewrite Hv.
  - destruct (init_repr T_default vs) as (cells & Hr' & Hv).
    rewrite (size_repr _ _ Hr'). by rewrite <- Hv, length_fmap.
Qed.

(** C9.  On any list, [clear()] returns and leaves size 0 and [empty()]
    true, with the sentinel still in place; a second [clear()] changes
    nothing. *)
Theorem clear_idempotent s cells :
  repr s cells →
  ∃ s', clear s = (Ok (), s')
    ∧ size_ s' = (Ok 0%N, s')
    ∧ empty s' = (Ok true, s')
    ∧ m_first s' = m_first s
    ∧ (∃ a0 n, m_first s' = Some a0 ∧ heap s' !! a0 = Some n)
    ∧ clear s' = (Ok (), s').
Proof.
  intros Hr. destruct (clear_spec s cells Hr) as (a0 & d0 & q & Hf & _ & Hc).
  eexists. split; [exact Hc|]. split_and!; try done.
  - exists a0, (Node d0 None). split; [done|]. apply lookup_insert_eq.
  - destruct (clear_spec _ [] (cleared_repr (heap s) a0 d0))
      as (a1 & d1 & q1 & [= <-] & Hq1 & Hc').
    cbn [heap] in Hq1, Hc'. rewrite lookup_insert_eq in Hq1.
    injection Hq1 as <- _. by rewrite insert_insert_eq in Hc'.
Qed.

(** C10 (the defect).  Advancing an iterator that holds the null pointer
    does not throw InvalidNodeAccess: both [operator++] call [next()]
    through the null [m_ptr], which has no defined behaviour, whatever the
    store. *)
Theorem advance_at_end_undefined (h : gmap loc (node T)) (it : iterator) :
  m_ptr it = None →
  fst (pre_incr h it) = Undefined ∧ fst (post_incr h it) = Undefined.
Proof. intros Hp. unfold pre_incr, post_incr. by rewrite Hp. Qed.

End Claims.

(** * The scenarios of the test suite, and instances of the properties *)

Module Scenarios.
Import IntList.
Open Scope Z_scope.

(** A concrete list is shown well-formed by evaluation. *)
Ltac repr_by_evaluation :=
  exists 1%positive, 0; vm_compute; repeat (split || eexists).

Example fresh_list_is_empty :
  result empty nil = Ok true ∧ result size_ nil = Ok 0%N.
Proof. split; reflexivity. Qed.

Example scenario_A :
  visits [push_back 4; push_back 5; push_back 6] (of_list [1; 2; 3])
  = Ok [1; 2; 3; 4; 5; 6].
Proof. vm_compute. reflexivity. Qed.

Example scenario_B :
  visits [push_front 3; push_front 2; push_front 1] (of_list [4; 5; 6])
  = Ok [1; 2; 3; 4; 5; 6].
Proof. vm_compute. reflexivity. Qed.

Example scenario_C :
  visits [erase 4; erase 2] (of_list [1; 2; 3; 4; 5]) = Ok [1; 3; 5].
Proof. vm_compute. reflexivity. Qed.

Example scenario_D :
  visits [insert_after 1 1000; insert_after (-3) 1000;
          insert_after 100 1000; insert_after 3 1000; insert_after 5 1000]
         (of_list [1; -3; 100; 3; 5])
  = Ok [1; 1000; -3; 1000; 100; 1000; 3; 1000; 5; 1000].
Proof. vm_compute. reflexivity. Qed.

Example scenario_E :
  result front nil = Throw EmptyContainer
  ∧ result back nil = Throw EmptyContainer
  ∧ result (find 10) nil = Throw EmptyContainer
  ∧ result (erase 1) nil = Throw EmptyContainer
  ∧ result (insert_after 10 11) nil = Throw EmptyContainer.
Proof. vm_compute. repeat split. Qed.

Example find_test :
  let l := of_list [1; 27; -3; 100; 5] in
  result (let! p := find 27 in get p) l = Ok 27
  ∧ result (let! p := find 5 in get p) l = Ok 5
  ∧ result (find 101) l = Ok None.
Proof. vm_compute. repeat split. Qed.

Example size_test :
  result size_ (of_list (Z.of_nat <$> seq 0 100)) = Ok 100%N.
Proof. vm_compute. reflexivity. Qed.

(** The range-for loop of the tests agrees with the traversal on a list
    that is not empty, and is undefined on the empty list. *)
Example range_for_test :
  result range_for l123 = Ok [1; 2; 3]
  ∧ result range_for nil = Undefined.
Proof. vm_compute. split; reflexivity. Qed.

Lemma end_of_empty_list_undefined_witness :
  empty nil = (Ok true, nil) ∧ fst (end_ nil) = Undefined.
Proof.
  split; [reflexivity|]. apply (end_of_empty_list_undefined nil). reflexivity.
Defined.

Lemma erase_correct_witness :
  repr l123 cells123
  ∧ occurrences 2 (cells123.*2) = 1%nat
  ∧ (∃ s' n, erase 2 l123 = (Ok (), s')
       ∧ size_ l123 = (Ok (n + 1)%N, l123) ∧ size_ s' = (Ok n, s')
       ∧ traversal s' = (Ok [1; 3], s'))
  ∧ erase 7 l123 = (Throw ValueNotFound, l123)
  ∧ erase 7 nil = (Throw EmptyContainer, nil).
Proof.
  assert (Hr : repr l123 cells123) by repr_by_evaluation.
  assert (Hn : repr nil []) by repr_by_evaluation.
  split; [exact Hr|]. split; [reflexivity|].
  destruct (erase_correct l123 cells123 2 Hr) as (_ & Hfound & _).
  destruct (erase_correct l123 cells123 7 Hr) as (_ & _ & Habsent & _).
  destruct (erase_correct nil [] 7 Hn) as (_ & _ & _ & Hempty).
  split; [exact (Hfound eq_refl)|].
  split; [apply Habsent; [done|compute_done]|by apply Hempty].
Defined.

Lemma find_correct_witness :
  repr l123 cells123
  ∧ (∃ pre b post, cells123 = pre ++ (b, 2) :: post ∧ (2 ∉ pre.*2)
       ∧ find 2 l123 = (Ok (Some b), l123)
       ∧ node_get (heap l123) (Some b) = Ok 2)
  ∧ find 7 l123 = (Ok None, l123)
  ∧ find 7 nil = (Throw EmptyContainer, nil).
Proof.
  assert (Hr : repr l123 cells123) by repr_by_evaluation.
  assert (Hn : repr nil []) by repr_by_evaluation.
  split; [exact Hr|].
  destruct (find_correct l123 cells123 2 Hr) as (Hfound & _).
  destruct (find_correct l123 cells123 7 Hr) as (_ & Habsent & _).
  destruct (find_correct nil [] 7 Hn) as (_ & _ & Hempty).
  split; [apply Hfound; compute_done|].
  split; [apply Habsent; [done|compute_done]|by apply Hempty].
Defined.

Lemma insert_after_correct_witness :
  repr l123 cells123
  ∧ (∃ pre b post a s', cells123 = pre ++ (b, 3) :: post ∧ (3 ∉ pre.*2)
       ∧ insert_after 3 9 l123 = (Ok (), s')
       ∧ repr s' (pre ++ (b, 3) :: (a, 9) :: post)
       ∧ traversal l123 = (Ok (pre.*2 ++ 3 :: post.*2), l123)
       ∧ traversal s' = (Ok (pre.*2 ++ 3 :: 9 :: post.*2), s')
       ∧ size_ s' = (Ok (m_size l123 + 1)%N, s')
       ∧ (post = [] → m_last s' = Some a ∧ back s' = (Ok 9, s')))
  ∧ insert_after 7 9 l123 = (Throw ValueNotFound, l123)
  ∧ insert_after 7 9 nil = (Throw EmptyContainer, nil).
Proof.
  assert (Hr : repr l123 cells123) by repr_by_evaluation.
  assert (Hn : repr nil []) by repr_by_evaluation.
  split; [exact Hr|].
  destruct (insert_after_correct l123 cells123 3 9 Hr) as (Hfound & _).
  destruct (insert_after_correct l123 cells123 7 9 Hr) as (_ & Habsent & _).
  destruct (insert_after_correct nil [] 7 9 Hn) as (_ & _ & Hempty).
  split; [apply Hfound; compute_done|].
  split; [apply Habsent; [done|compute_done]|by apply Hempty].
Defined.

Lemma failed_mutation_changes_nothing_witness :
  let s1 := after (erase 1) nil in
  let s2 := after (insert_after 7 9) l123 in
  erase 1 nil = (Throw EmptyContainer, s1)
  ∧ insert_after 7 9 l123 = (Throw ValueNotFound, s2)
  ∧ s1 = nil
  ∧ s2 = l123
  ∧ fst (traversal s2) = fst (traversal l123)
  ∧ fst (back s2) = fst (back l123).
Proof.
  intros s1 s2.
  assert (He : erase 1 nil = (Throw EmptyContainer, s1)) by reflexivity.
  assert (Hi : insert_after 7 9 l123 = (Throw ValueNotFound, s2))
    by (vm_compute; reflexivity).
  destruct (failed_mutation_changes_nothing nil s1 EmptyContainer
              (or_introl (ex_intro _ 1 He))) as (H1 & _).
  destruct (failed_mutation_changes_nothing l123 s2 ValueNotFound
              (or_intror (ex_intro _ 7 (ex_intro _ 9 Hi))))
    as (H2 & _ & Ht & _ & Hb).
  repeat split; assumption.
Defined.

Lemma tail_consistency_witness :
  let s := exec (Erase 3) (exec (PushFront 0) l123) in
  reachable 0 mutator s
  ∧ empty s = (Ok false, s)
  ∧ ∃ vs x y,
      traversal s = (Ok vs, s) ∧ head vs = Some x ∧ last vs = Some y
      ∧ front s = (Ok x, s) ∧ back s = (Ok y, s).
Proof.
  intros s.
  assert (Hreach : reachable 0 mutator s).
  { apply reach_step; [reflexivity|]. apply reach_step; [reflexivity|].
    apply reach_init. }
  assert (Hne : empty s = (Ok false, s)) by (vm_compute; reflexivity).
  split; [exact Hreach|]. split; [exact Hne|].
  exact (tail_consistency 0 s Hreach Hne).
Defined.

Lemma empty_iff_size_zero_witness :
  let s := exec End_ (exec (Erase 5) (exec (PushBack 5) nil)) in
  reachable 0 any_op s
  ∧ (fst (empty s) = Ok true ↔ fst (size_ s) = Ok 0%N)
  ∧ snd (empty s) = s
  ∧ I3 s
  ∧ ∀ o, I3 (exec o s).
Proof.
  intros s.
  assert (Hreach : reachable 0 any_op s).
  { do 3 (apply reach_step; [reflexivity|]). apply reach_ctor. }
  split; [exact Hreach|]. exact (empty_iff_size_zero 0 s Hreach).
Defined.

Lemma push_back_order_witness :
  repr nil []
  ∧ (∃ s', push_back_all [1; 2; 3] nil = (Ok (), s')
       ∧ traversal s' = (Ok [1; 2; 3], s')
       ∧ size_ s' = (Ok 3%N, s'))
  ∧ traversal l123 = (Ok [1; 2; 3], l123)
  ∧ size_ l123 = (Ok 3%N, l123).
Proof.
  assert (Hn : repr nil []) by repr_by_evaluation.
  split; [exact Hn|]. exact (push_back_order 0 nil [1; 2; 3] Hn).
Defined.

Lemma clear_idempotent_witness :
  repr l123 cells123
  ∧ ∃ s', clear l123 = (Ok (), s')
      ∧ size_ s' = (Ok 0%N, s')
      ∧ empty s' = (Ok true, s')
      ∧ m_first s' = m_first l123
      ∧ (∃ a0 n, m_first s' = Some a0 ∧ heap s' !! a0 = Some n)
      ∧ clear s' = (Ok (), s').
Proof.
  assert (Hr : repr l123 cells123) by repr_by_evaluation.
  split; [exact Hr|]. exact (clear_idempotent l123 cells123 Hr).
Defined.

Lemma advance_at_end_undefined_witness :
  let it := Iterator None in
  m_ptr it = None
  ∧ fst (pre_incr (heap l123) it) = Undefined
  ∧ fst (post_incr (heap l123) it) = Undefined.
Proof.
  intros it. split; [reflexivity|].
  exact (advance_at_end_undefined (heap l123) it eq_refl).
Defined.

End Scenarios.

(** * Further properties of the operations *)

Section Extras.
Context {T : Type} `{EqDecision T}.
Implicit Types (s : s_list T) (cells pre post : list (loc * T)).

#[local] Arguments scan : simpl never.
#[local] Arguments clear_loop : simpl never.
#[local] Arguments walk : simpl never.

Lemma repr_size s cells : repr s cells → m_size s = N.of_nat (length cells).
Proof. by intros (_ & _ & _ & _ & ?). Qed.

Lemma back_nonempty s cells y :
  repr s cells → last (cells.*2) = Some y → back s = (Ok y, s).
Proof.
  intros Hr Hy. destruct cells as [|[b x] cells _] using rev_ind; [done|].
  rewrite fmap_app in Hy. simpl in Hy. rewrite last_snoc in Hy.
  injection Hy as <-. by apply (back_spec s cells b x).
Qed.

Lemma front_nonempty s cells x :
  repr s cells → head (cells.*2) = Some x → front s = (Ok x, s).
Proof.
  intros Hr Hx. destruct cells as [|[b x'] cells]; [done|].
  simpl in Hx. injection Hx as <-. by apply (front_spec s b x' cells).
Qed.

(** The scan of [find] reads only. *)
Lemma find_state s x : snd (find x s) = s.
Proof.
  unfold find. munfold. case_bool_decide; simpl; [done|].
  pose proof (scan_state (S (size (heap s))) x (m_first s) s) as Hst.
  destruct (scan (S (size (heap s))) x (m_first s) s) as [[t| |] s1];
    simpl in Hst; subst s1; [|done..].
  case_bool_decide; simpl; [done|].
  destruct t as [a|]; [|done]. by destruct (heap s !! a).
Qed.

(** X1.  [push_front v] returns on every list; afterwards the traversal is
    [v] followed by the former one, the size is one more, [front()] is [v],
    and [back()] is what it was (or [v] on a list that was empty). *)
Theorem push_front_prepends s cells v :
  repr s cells →
  ∃ s', push_front v s = (Ok (), s')
    ∧ traversal s' = (Ok (v :: cells.*2), s')
    ∧ size_ s' = (Ok (m_size s + 1)%N, s')
    ∧ front s' = (Ok v, s')
    ∧ (cells = [] → back s' = (Ok v, s'))
    ∧ (∀ y, back s = (Ok y, s) → back s' = (Ok y, s')).
Proof.
  intros Hr. destruct (push_front_spec s cells v Hr) as (a & s' & Hp & Hr' & _).
  exists s'. split_and!.
  - done.
  - by rewrite (traversal_spec _ _ Hr').
  - rewrite (size_repr _ _ Hr'), (repr_size _ _ Hr). do 2 f_equal. simpl. lia.
  - by apply (front_spec s' a v cells).
  - intros ->. by apply (back_spec s' [] a v).
  - intros y Hy. destruct cells as [|[b x] cells _] using rev_ind.
    + by rewrite (back_empty s Hr) in Hy.
    + rewrite (back_spec s cells b x Hr) in Hy. injection Hy as <-.
      by apply (back_spec s' ((a, v) :: cells) b x).
Qed.

(** X3.  [push_back v] returns on every list; afterwards the traversal is
    the former one followed by [v], the size is one more, [back()] is [v],
    and [front()] is what it was (or [v] on a list that was empty). *)
Theorem push_back_appends s cells v :
  repr s cells →
  ∃ s', push_back v s = (Ok (), s')
    ∧ traversal s' = (Ok (cells.*2 ++ [v]), s')
    ∧ size_ s' = (Ok (m_size s + 1)%N, s')
    ∧ back s' = (Ok v, s')
    ∧ (cells = [] → front s' = (Ok v, s'))
    ∧ (∀ x, front s = (Ok x, s) → front s' = (Ok x, s')).
Proof.
  intros Hr. destruct (push_back_spec s cells v Hr) as (a & s' & Hp & Hr' & _).
  exists s'. split_and!.
  - done.
  - rewrite (traversal_spec _ _ Hr'). by rewrite fmap_app.
  - rewrite (size_repr _ _ Hr'), (repr_size _ _ Hr). do 2 f_equal.
    rewrite length_app. simpl. lia.
  - by apply (back_spec s' cells a v).
  - intros ->. by apply (front_spec s' a v []).
  - intros x Hx. destruct cells as [|[b x'] cells].
    + by rewrite (front_empty s Hr) in Hx.
    + rewrite (front_spec s b x' cells Hr) in Hx. injection Hx as <-.
      by apply (front_spec s' b x' (cells ++ [(a, v)])).
Qed.

Lemma push_front_all_spec args s cells :
  repr s cells →
  ∃ s' cells', push_front_all args s = (Ok (), s') ∧ repr s' cells'
               ∧ cells'.*2 = reverse args ++ cells.*2.
Proof.
  revert s cells. induction args as [|v args IH]; intros s cells Hr.
  - exists s, cells. done.
  - destruct (push_front_spec s cells v Hr) as (a & s1 & Hpf & Hr1 & _).
    destruct (IH s1 _ Hr1) as (s' & cells' & Hall & Hr' & Hv).
    exists s', cells'. split_and!; [|done|].
    + simpl. unfold bind. by rewrite Hpf.
    + rewrite Hv, reverse_cons. simpl. by rewrite <- app_assoc.
Qed.

(** X2.  Calling [push_front] with [v1], ..., [vn] in this order on an
    empty list gives a list whose traversal is [vn], ..., [v1] and whose
    size is [n]. *)
Theorem push_front_order s vs :
  repr s [] →
  ∃ s', push_front_all vs s = (Ok (), s')
    ∧ traversal s' = (Ok (reverse vs), s')
    ∧ size_ s' = (Ok (N.of_nat (length vs)), s').
Proof.
  intros Hr.
  destruct (push_front_all_spec vs s [] Hr) as (s' & cells' & Hall & Hr' & Hv).
  simpl in Hv. rewrite app_nil_r in Hv. exists s'. split_and!; [done| |].
  - rewrite (traversal_spec _ _ Hr'). by rewrite Hv.
  - rewrite (size_repr _ _ Hr').
    by rewrite <- (length_fmap snd), Hv, length_reverse.
Qed.

(** X4.  On the empty list [front()] and [back()] throw EmptyContainer; on
    any other list they return the first and the last element of the
    traversal.  Neither changes the list. *)
Theorem front_back_correct s cells :
  repr s cells →
  (cells = [] →
     front s = (Throw EmptyContainer, s) ∧ back s = (Throw EmptyContainer, s))
  ∧ (∀ x y, head (cells.*2) = Some x → last (cells.*2) = Some y →
       front s = (Ok x, s) ∧ back s = (Ok y, s)).
Proof.
  intros Hr. split.
  - intros ->. split; [by apply front_empty|by apply back_empty].
  - intros x y Hx Hy. split.
    + by apply (front_nonempty s cells).
    + by apply (back_nonempty s cells).
Qed.

(** X5.  The operations that only read (find, front, back, begin, end,
    empty, size) leave the list exactly as it was, on every state and also
    when they throw. *)
Theorem queries_change_nothing s o : mutator o = false → exec o s = s.
Proof.
  destruct o as [v|v|x|pos v| |x| | | | | | ]; try done; intros _; simpl.
  - apply find_state.
  - unfold front. munfold. case_bool_decide; simpl; [done|].
    destruct (m_first s) as [a|]; simpl; [|done].
    destruct (heap s !! a) as [n|]; simpl; [|done].
    destruct (m_next n) as [b|]; simpl; [|done]. by destruct (heap s !! b).
  - unfold back. munfold. case_bool_decide; simpl; [done|].
    destruct (m_last s) as [a|]; simpl; [|done]. by destruct (heap s !! a).
  - unfold begin_. munfold. destruct (m_first s) as [a|]; simpl; [|done].
    by destruct (heap s !! a).
  - unfold end_. munfold. destruct (m_last s) as [a|]; simpl; [|done].
    by destruct (heap s !! a).
Qed.

Lemma occurrences_cons x y (l : list T) :
  occurrences x (y :: l)
  = (if decide (y = x) then 1 else 0) + occurrences x l.
Proof.
  unfold occurrences. rewrite filter_cons. by destruct (decide (y = x)).
Qed.

Lemma occurrences_app x (l1 l2 : list T) :
  occurrences x (l1 ++ l2) = occurrences x l1 + occurrences x l2.
Proof. unfold occurrences. by rewrite filter_app, length_app. Qed.

Lemma occurrences_zero x (l : list T) : occurrences x l = 0 ↔ x ∉ l.
Proof.
  induction l as [|y l IH].
  - split; [intros _; apply not_elem_of_nil|done].
  - rewrite occurrences_cons, not_elem_of_cons.
    destruct (decide (y = x)) as [->|Hne]; simpl.
    + split; [done|]. by intros [? _].
    + rewrite IH. split; [by intros ?; split|by intros [_ ?]].
Qed.

Lemma remove_first_occurrences x (l : list T) :
  x ∈ l →
  S (occurrences x (remove_first x l)) = occurrences x l
  ∧ ∀ y, y ≠ x → occurrences y (remove_first x l) = occurrences y l.
Proof.
  induction l as [|z l IH]; intros Hin.
  - by apply elem_of_nil in Hin.
  - simpl. destruct (decide (z = x)) as [->|Hne].
    + split.
      * rewrite occurrences_cons. by rewrite decide_True.
      * intros y Hy. rewrite occurrences_cons. by rewrite decide_False.
    + apply elem_of_cons in Hin as [->|Hin]; [done|].
      destruct (IH Hin) as [IH1 IH2]. split.
      * rewrite !occurrences_cons, decide_False by done. simpl. done.
      * intros y Hy. rewrite !occurrences_cons. by rewrite IH2.
Qed.

(** X6.  On a list that holds [x], however often, [erase x] returns and
    takes out the first [x] only: the traversal loses one [x], at its first
    place, and every other element is there as often as before. *)
Theorem erase_removes_first_only s cells x :
  repr s cells → x ∈ cells.*2 →
  ∃ s' vs', erase x s = (Ok (), s')
    ∧ traversal s' = (Ok vs', s')
    ∧ vs' = remove_first x (cells.*2)
    ∧ S (occurrences x vs') = occurrences x (cells.*2)
    ∧ (∀ y, y ≠ x → occurrences y vs' = occurrences y (cells.*2))
    ∧ size_ s = (Ok (N.of_nat (S (length vs'))), s)
    ∧ size_ s' = (Ok (N.of_nat (length vs')), s').
Proof.
  intros Hr Hin. destruct (remove_first_occurrences x _ Hin) as [Ho1 Ho2].
  destruct (first_split _ _ Hin) as (pre & b & post & -> & Hn).
  destruct (erase_found s x pre b post Hr Hn) as (s' & He & Hr' & _).
  assert (Hrm : remove_first x ((pre ++ (b, x) :: post).*2) = (pre ++ post).*2).
  { rewrite !fmap_app, fmap_cons. simpl. by rewrite remove_first_split. }
  rewrite Hrm in Ho1, Ho2.
  exists s', ((pre ++ post).*2). split_and!; try done.
  - by apply traversal_spec.
  - rewrite (size_repr _ _ Hr). do 2 f_equal.
    rewrite length_fmap, !length_app. simpl. lia.
  - rewrite (size_repr _ _ Hr'). by rewrite length_fmap.
Qed.

(** X7.  Erasing the last element moves the tail back: afterwards [back()]
    is the element before it, or the list is empty when there was none, and
    a following [push_back] appends after the new tail. *)
Theorem erase_tail_moves_tail s pre b x w :
  repr s (pre ++ [(b, x)]) → x ∉ pre.*2 →
  ∃ s1 s2, erase x s = (Ok (), s1)
    ∧ (pre = [] →
         empty s1 = (Ok true, s1) ∧ back s1 = (Throw EmptyContainer, s1))
    ∧ (∀ y, last (pre.*2) = Some y → back s1 = (Ok y, s1))
    ∧ push_back w s1 = (Ok (), s2)
    ∧ traversal s2 = (Ok (pre.*2 ++ [w]), s2)
    ∧ back s2 = (Ok w, s2).
Proof.
  intros Hr Hn. destruct (erase_found s x pre b [] Hr Hn) as (s1 & He & Hr1 & _).
  rewrite app_nil_r in Hr1.
  destruct (push_back_spec s1 pre w Hr1) as (a & s2 & Hp & Hr2 & _).
  exists s1, s2. split_and!; try done.
  - intros ->. split; [by rewrite (empty_repr _ _ Hr1)|by apply back_empty].
  - intros y Hy. by apply (back_nonempty s1 pre).
  - rewrite (traversal_spec _ _ Hr2). by rewrite fmap_app.
  - by apply (back_spec s2 pre a w).
Qed.

(** X8.  Once the only [x] of a list has been erased, [x] is gone: a
    following [find x] returns the null pointer and a following [erase x]
    throws ValueNotFound; when [x] was the only element, both throw
    EmptyContainer instead. *)
Theorem erase_then_lookup_fails s cells x :
  repr s cells → occurrences x (cells.*2) = 1 →
  ∃ s', erase x s = (Ok (), s')
    ∧ (length cells = 1 →
         find x s' = (Throw EmptyContainer, s')
         ∧ erase x s' = (Throw EmptyContainer, s'))
    ∧ (length cells ≠ 1 →
         find x s' = (Ok None, s')
         ∧ erase x s' = (Throw ValueNotFound, s')).
Proof.
  intros Hr Hocc. pose proof (occurrences_elem _ _ Hocc) as Hin.
  destruct (remove_first_occurrences x _ Hin) as [Ho1 _].
  destruct (first_split _ _ Hin) as (pre & b & post & -> & Hn).
  destruct (erase_found s x pre b post Hr Hn) as (s' & He & Hr' & _).
  assert (Hrm : remove_first x ((pre ++ (b, x) :: post).*2) = (pre ++ post).*2).
  { rewrite !fmap_app, fmap_cons. simpl. by rewrite remove_first_split. }
  rewrite Hrm, Hocc in Ho1. injection Ho1 as Ho1.
  apply occurrences_zero in Ho1.
  rewrite length_app. simpl.
  exists s'. split_and!; [done| |].
  - intros Hlen. assert (pre ++ post = []) as Hnil.
    { apply length_zero_iff_nil. rewrite length_app. lia. }
    rewrite Hnil in Hr'. split; [by apply find_empty|by apply erase_empty].
  - intros Hlen. assert (pre ++ post ≠ []) as Hne.
    { intros Hnil. apply (f_equal length) in Hnil.
      rewrite length_app in Hnil. simpl in Hnil. lia. }
    split; [by apply (find_absent s' x (pre ++ post))
           |by apply (erase_absent s' x (pre ++ post))].
Qed.

Lemma front_back_repr s s' cells :
  repr s cells → repr s' cells →
  fst (front s') = fst (front s) ∧ fst (back s') = fst (back s).
Proof.
  intros Hr Hr'. split.
  - destruct cells as [|[b x] cells].
    + by rewrite (front_empty s Hr), (front_empty s' Hr').
    + by rewrite (front_spec s b x cells Hr), (front_spec s' b x cells Hr').
  - destruct cells as [|[b x] cells _] using rev_ind.
    + by rewrite (back_empty s Hr), (back_empty s' Hr').
    + by rewrite (back_spec s cells b x Hr), (back_spec s' cells b x Hr').
Qed.

(** X9.  [push_front v] followed by [erase v] gives back the list: the
    same nodes at the same addresses in the same order, hence the same
    traversal, size, [front()] and [back()]. *)
Theorem push_front_erase_roundtrip s cells v :
  repr s cells →
  ∃ s1 s2, push_front v s = (Ok (), s1) ∧ erase v s1 = (Ok (), s2)
    ∧ repr s2 cells
    ∧ traversal s2 = (Ok (cells.*2), s2)
    ∧ fst (traversal s2) = fst (traversal s)
    ∧ fst (size_ s2) = fst (size_ s)
    ∧ fst (front s2) = fst (front s)
    ∧ fst (back s2) = fst (back s).
Proof.
  intros Hr. destruct (push_front_spec s cells v Hr) as (a & s1 & Hp & Hr1 & _).
  destruct (erase_found s1 v [] a cells Hr1) as (s2 & He & Hr2 & _);
    [apply not_elem_of_nil|]. simpl in Hr2.
  destruct (front_back_repr s s2 cells Hr Hr2) as [Hf Hb].
  exists s1, s2. split_and!; try done.
  - by apply traversal_spec.
  - by rewrite (traversal_spec _ _ Hr2), (traversal_spec _ _ Hr).
  - by rewrite (size_repr _ _ Hr2), (size_repr _ _ Hr).
Qed.

(** X10.  [insert_after pos v] of a [v] that the list does not hold,
    followed by [erase v], gives back the list: the same nodes at the same
    addresses in the same order. *)
Theorem insert_after_erase_roundtrip s cells pos v :
  repr s cells → pos ∈ cells.*2 → v ∉ cells.*2 →
  ∃ s1 s2, insert_after pos v s = (Ok (), s1) ∧ erase v s1 = (Ok (), s2)
    ∧ repr s2 cells
    ∧ fst (traversal s2) = fst (traversal s)
    ∧ fst (size_ s2) = fst (size_ s)
    ∧ fst (front s2) = fst (front s)
    ∧ fst (back s2) = fst (back s).
Proof.
  intros Hr Hin Hv.
  destruct (first_split _ _ Hin) as (pre & b & post & Heq & Hn).
  rewrite Heq in Hr, Hv.
  destruct (insert_after_found s pos v pre b post Hr Hn)
    as (a & s1 & Hi & Hr1 & _).
  assert (Hv' : v ∉ (pre ++ [(b, pos)]).*2).
  { rewrite fmap_app in Hv |- *. rewrite fmap_cons in Hv. simpl in Hv |- *.
    intros Hin'. apply Hv. apply elem_of_app in Hin' as [?|Hin'];
      apply elem_of_app; [by left|right].
    apply list_elem_of_singleton in Hin' as ->. left. }
  assert (Hc : pre ++ (b, pos) :: (a, v) :: post
               = (pre ++ [(b, pos)]) ++ (a, v) :: post)
    by (by rewrite <- app_assoc).
  rewrite Hc in Hr1.
  destruct (erase_found s1 v _ a post Hr1 Hv') as (s2 & He & Hr2 & _).
  rewrite <- app_assoc in Hr2. simpl in Hr2.
  destruct (front_back_repr s s2 _ Hr Hr2) as [Hf Hb].
  exists s1, s2. rewrite Heq. split_and!; try done.
  - by rewrite (traversal_spec _ _ Hr2), (traversal_spec _ _ Hr).
  - by rewrite (size_repr _ _ Hr2), (size_repr _ _ Hr).
Qed.

(** X11.  After [push_back v], [find v] returns a node that holds [v]; if
    the list did not hold [v] before, it is the new tail. *)
Theorem push_back_then_find s cells v :
  repr s cells →
  ∃ s' p, push_back v s = (Ok (), s')
    ∧ find v s' = (Ok (Some p), s')
    ∧ node_get (heap s') (Some p) = Ok v
    ∧ (v ∉ cells.*2 → m_last s' = Some p).
Proof.
  intros Hr. destruct (push_back_spec s cells v Hr) as (a & s' & Hp & Hr' & _).
  assert (Hin : v ∈ (cells ++ [(a, v)]).*2).
  { rewrite fmap_app. apply elem_of_app. right. left. }
  destruct (first_split _ _ Hin) as (pre & b & post & Heq & Hn).
  pose proof Hr' as Hr''. rewrite Heq in Hr''.
  exists s', b. split_and!; [done|by apply (find_found s' v pre b post)| |].
  - destruct Hr'' as (a0 & d0 & Hl & _). rewrite app_comm_cons in Hl.
    apply lseg_app in Hl as (r & _ & Hl). simpl in Hl.
    destruct Hl as (_ & q & Hb & _). simpl. by rewrite Hb.
  - intros Hv. destruct Hr' as (_ & _ & _ & -> & _). rewrite last_fst_snoc.
    f_equal. destruct post as [|c post _] using rev_ind.
    + apply app_inj_tail in Heq as [_ [= ->]]. done.
    + rewrite app_comm_cons, app_assoc in Heq.
      apply app_inj_tail in Heq as [-> _]. destruct Hv.
      rewrite fmap_app, fmap_cons. apply elem_of_app. right. left.
Qed.

(** [++it] along a segment of the chain. *)
Lemma advance_lseg (h : gmap loc (node T)) p cells q :
  lseg h p cells q →
  advance (length cells) h (Iterator p) = (Ok (), Iterator q).
Proof.
  revert p. induction cells as [|[c x] cells IH]; intros p Hl; simpl in Hl.
  - by subst q.
  - destruct Hl as (-> & nx & Hc & Hl). simpl. munfold. rewrite Hc. simpl.
    by apply IH.
Qed.

Lemma repr_begin s cells :
  repr s cells →
  ∃ q, begin_ s = (Ok (Iterator q), s) ∧ lseg (heap s) q cells None.
Proof.
  intros (a0 & d0 & Hl & _). destruct Hl as (Hf & q & Ha0 & Hl).
  exists q. split; [|done]. unfold begin_. by mrun.
Qed.

(** X12.  An iterator from [begin()] advanced [i] times stands on the
    [i]-th element of the traversal and reads it; advanced [size()] times
    it has reached the end of the sequence, where reading has no defined
    behaviour. *)
Theorem iterator_steps s cells :
  repr s cells →
  ∃ b, begin_ s = (Ok b, s)
    ∧ (∀ i x, cells.*2 !! i = Some x →
         ∃ it, advance i (heap s) b = (Ok (), it)
               ∧ iter_eq it iterator_default = false
               ∧ deref (heap s) it = (Ok x, it))
    ∧ (∃ it, advance (length cells) (heap s) b = (Ok (), it)
             ∧ iter_eq it iterator_default = true
             ∧ fst (deref (heap s) it) = Undefined).
Proof.
  intros Hr. destruct (repr_begin s cells Hr) as (q & Hb & Hl).
  exists (Iterator q). split_and!; [done| |].
  - intros i x Hi. rewrite list_lookup_fmap in Hi.
    destruct (cells !! i) as [[c x']|] eqn:Hc; [|done].
    simpl in Hi. injection Hi as ->.
    pose proof (take_drop_middle _ _ _ Hc) as Hsplit.
    pose proof (lookup_lt_Some _ _ _ Hc) as Hlt.
    rewrite <- Hsplit in Hl. apply lseg_app in Hl as (r & Hl1 & Hl2).
    simpl in Hl2. destruct Hl2 as (-> & nx & Hc' & _).
    exists (Iterator (Some c)). split_and!.
    + apply advance_lseg in Hl1. rewrite length_take_le in Hl1 by lia. done.
    + done.
    + munfold. by rewrite Hc'.
  - exists (Iterator None). split_and!; [by apply advance_lseg|done|done].
Qed.

(** X13.  [begin()] returns on every list, the empty one included; its
    iterator is the end of the sequence exactly when the list is empty, and
    otherwise reads what [front()] returns. *)
Theorem begin_correct s cells :
  repr s cells →
  ∃ b, begin_ s = (Ok b, s)
    ∧ (iter_eq b iterator_default = true ↔ cells = [])
    ∧ (∀ x, front s = (Ok x, s) → deref (heap s) b = (Ok x, b)).
Proof.
  intros Hr. destruct (repr_begin s cells Hr) as (q & Hb & Hl).
  exists (Iterator q). split_and!; [done| |].
  - destruct cells as [|[c y] cells]; simpl in Hl.
    + by subst q.
    + destruct Hl as (-> & _). done.
  - intros x Hx. destruct cells as [|[c y] cells].
    + by rewrite (front_empty s Hr) in Hx.
    + rewrite (front_spec s c y cells Hr) in Hx. injection Hx as <-.
      simpl in Hl. destruct Hl as (-> & nx & Hc & _). munfold. by rewrite Hc.
Qed.

(** The loop of [operator<<] along a chain. *)
Lemma put_range_lseg (h : gmap loc (node T)) cells p fuel out :
  lseg h p cells None →
  length cells < fuel →
  put_range fuel h (Iterator None) (Iterator p) out
  = (Ok (), out ++ flat_map (λ x, [Elem x; Space]) (cells.*2)).
Proof.
  revert p fuel out.
  induction cells as [|[c x] cells IH]; intros p fuel out Hl Hf;
    (destruct fuel as [|fuel]; [simpl in Hf; lia|]); simpl in Hl.
  - subst p. simpl. unfold ret. by rewrite app_nil_r.
  - destruct Hl as (-> & nx & Hc & Hl). simpl. unfold lift, put. munfold.
    rewrite Hc. simpl. rewrite (IH nx fuel); [|done|simpl in Hf; lia].
    by rewrite <- !app_assoc.
Qed.

(** X14.  [operator<<] on a list that is not empty inserts every element
    of the traversal in order, each followed by one space, the last one
    too; on the empty list it has no defined behaviour (from [end()]). *)
Theorem operator_shl_correct (v : s_list T) cells out :
  repr v cells →
  (cells ≠ [] →
     operator_shl v out
     = (Ok (), out ++ flat_map (λ x, [Elem x; Space]) (cells.*2)))
  ∧ (cells = [] → fst (operator_shl v out) = Undefined).
Proof.
  intros Hr. pose proof (repr_rounds _ _ Hr) as Hfuel.
  destruct (repr_begin v cells Hr) as (q & Hb & Hl). split.
  - intros Hne. unfold operator_shl, lift, bind.
    rewrite Hb, (end_nonempty v cells Hr Hne). cbn [fst].
    apply put_range_lseg; [done|lia].
  - intros ->. unfold operator_shl, lift, bind.
    rewrite Hb, (end_empty v); [done|]. by apply (repr_empty v []).
Qed.

(** X15.  In every reachable list [size()] is the number of elements the
    traversal visits, and [empty()] tells whether there is none. *)
Theorem size_counts_traversal (T_default : T) s :
  reachable T_default any_op s →
  ∃ vs, traversal s = (Ok vs, s)
    ∧ size_ s = (Ok (N.of_nat (length vs)), s)
    ∧ empty s = (Ok (bool_decide (vs = [])), s).
Proof.
  intros [cells Hr]%reachable_repr. exists (cells.*2). split_and!.
  - by apply traversal_spec.
  - rewrite (size_repr _ _ Hr). by rewrite length_fmap.
  - rewrite (empty_repr _ _ Hr). do 2 f_equal. apply bool_decide_ext.
    split; [by intros ->|apply fmap_nil_inv].
Qed.

(** X16.  No operation moves or rewrites a node that it keeps: after
    push_back, push_front or insert_after the former nodes are all there,
    at their addresses, with their elements, in their order, and at most one
    node is new; erase only takes out at most one node; clear leaves none;
    the reading operations leave all.  The sentinel is never replaced. *)
Theorem operations_keep_nodes s cells o :
  repr s cells →
  ∃ cells', repr (exec o s) cells'
    ∧ m_first (exec o s) = m_first s
    ∧ match o with
      | PushBack _ | PushFront _ | InsertAfter _ _ =>
          sublist cells cells' ∧ length cells' ≤ S (length cells)
      | Erase _ => sublist cells' cells ∧ length cells ≤ S (length cells')
      | Clear => cells' = []
      | _ => cells' = cells
      end.
Proof.
  intros Hr. destruct o as [v|v|x|pos v| |x| | | | | | ]; simpl.
  - destruct (push_back_spec s cells v Hr) as (a & s' & -> & ? & ?).
    eexists. split_and!; [done|done| |].
    + by apply sublist_inserts_r.
    + rewrite length_app. simpl. lia.
  - destruct (push_front_spec s cells v Hr) as (a & s' & -> & ? & ?).
    eexists. split_and!; [done|done| |].
    + by apply sublist_cons.
    + simpl. lia.
  - destruct (decide (x ∈ cells.*2)) as [Hin|Hni].
    + destruct (first_split _ _ Hin) as (pre & b & post & -> & Hn).
      destruct (erase_found s x pre b post Hr Hn) as (s' & -> & ? & ?).
      eexists. split_and!; [done|done| |].
      * apply sublist_app; [done|]. by apply sublist_cons.
      * rewrite !length_app. simpl. lia.
    + destruct cells as [|c cells].
      * rewrite (erase_empty s x Hr). simpl. eexists. split_and!; eauto.
      * rewrite (erase_absent s x _ Hr); [|done..]. simpl.
        eexists. split_and!; eauto.
  - destruct (decide (pos ∈ cells.*2)) as [Hin|Hni].
    + destruct (first_split _ _ Hin) as (pre & b & post & -> & Hn).
      destruct (insert_after_found s pos v pre b post Hr Hn)
        as (a & s' & -> & ? & ?).
      eexists. split_and!; [done|done| |].
      * apply sublist_app; [done|]. apply sublist_skip. by apply sublist_cons.
      * rewrite !length_app. simpl. lia.
    + destruct cells as [|c cells].
      * rewrite (insert_after_empty s pos v Hr). simpl.
        eexists. split_and!; eauto.
      * rewrite (insert_after_absent s pos v _ Hr); [|done..]. simpl.
        eexists. split_and!; eauto.
  - destruct (clear_spec s cells Hr) as (a0 & d0 & q & Hf & _ & ->).
    exists []. split_and!; [apply cleared_repr|by rewrite Hf|done].
  - rewrite find_state. eauto.
  - destruct cells as [|[b x] cells].
    + rewrite (front_empty s Hr). eauto.
    + rewrite (front_spec s b x cells Hr). eauto.
  - destruct cells as [|[b x] cells _] using rev_ind.
    + rewrite (back_empty s Hr). eauto.
    + rewrite (back_spec s cells b x Hr). eauto.
  - rewrite (begin_spec s cells Hr). eauto.
  - destruct cells as [|c cells].
    + rewrite (end_empty s); [eauto|]. by apply (repr_empty s []).
    + rewrite (end_nonempty s _ Hr); eauto.
  - eauto.
  - eauto.
Qed.

(** X17.  A cleared list is as good as new: [clear()] followed by
    [push_back] of [v1..vn] gives a list whose traversal is [v1..vn] and
    whose size is [n], on the sentinel it had. *)
Theorem clear_then_reuse s cells vs :
  repr s cells →
  ∃ s1 s2, clear s = (Ok (), s1) ∧ push_back_all vs s1 = (Ok (), s2)
    ∧ traversal s2 = (Ok vs, s2)
    ∧ size_ s2 = (Ok (N.of_nat (length vs)), s2)
    ∧ m_first s2 = m_first s.
Proof.
  intros Hr. destruct (clear_spec s cells Hr) as (a0 & d0 & q & Hf & _ & Hc).
  destruct (push_back_all_spec vs _ [] (cleared_repr (heap s) a0 d0))
    as (s2 & cells2 & Hall & Hr2 & Hv & Hf2).
  simpl in Hv. eexists _, s2. split_and!; [exact Hc|exact Hall| | |].
  - rewrite (traversal_spec _ _ Hr2). by rewrite Hv.
  - rewrite (size_repr _ _ Hr2). by rewrite <- Hv, length_fmap.
  - by rewrite Hf2, Hf.
Qed.

(** X18.  In every reachable list the chain from the sentinel to the null
    pointer passes through no node twice, the sentinel is not one of the
    real nodes, and every node of the chain is in the store. *)
Theorem reachable_chain_acyclic (T_default : T) s :
  reachable T_default any_op s →
  ∃ a0 cells, m_first s = Some a0 ∧ repr s cells
    ∧ NoDup (a0 :: cells.*1)
    ∧ (∀ a, a ∈ a0 :: cells.*1 → is_Some (heap s !! a)).
Proof.
  intros [cells Hr]%reachable_repr. pose proof Hr as (a0 & d0 & Hl & _).
  assert (Hf : m_first s = Some a0) by (by destruct Hl).
  exists a0, cells. split_and!; [done|done| |].
  - by apply lseg_NoDup in Hl.
  - intros a Ha. by apply (lseg_dom _ _ _ _ _ Hl).
Qed.

(** X19.  The destructor returns on every list, without an exception, and
    leaves the list object without a pointer to any node. *)
Theorem dtor_releases s cells :
  repr s cells →
  ∃ s', s_list_dtor s = (Ok (), s')
    ∧ m_first s' = None ∧ m_last s' = None ∧ m_size s' = 0%N.
Proof.
  intros Hr. destruct (clear_spec s cells Hr) as (a0 & d0 & q & _ & _ & Hc).
  eexists. split; [unfold s_list_dtor, bind; rewrite Hc; reflexivity|done].
Qed.

(** X20.  Which call throws what, on a well-formed list: push_back,
    push_front, clear, begin, empty and size always return; find, front and
    back throw EmptyContainer on the empty list and return otherwise; erase
    and insert_after throw EmptyContainer on the empty list, ValueNotFound
    when the value they look for is not there, and return otherwise; [end()]
    has no defined behaviour on the empty list and returns otherwise.  No
    call on a well-formed list throws InvalidNodeAccess. *)
Theorem endings_of_calls s cells o :
  repr s cells →
  call o s =
    match o with
    | PushBack _ | PushFront _ | Clear | Begin | Empty | Size => Returned
    | Find _ | Front | Back =>
        if decide (cells = []) then Threw EmptyContainer else Returned
    | Erase x | InsertAfter x _ =>
        if decide (cells = []) then Threw EmptyContainer
        else if decide (x ∈ cells.*2) then Returned
        else Threw ValueNotFound
    | End_ =>
        if decide (cells = []) then NoResult else Returned
    end.
Proof.
  intros Hr. destruct o as [v|v|x|pos v| |x| | | | | | ]; simpl.
  - by destruct (push_back_spec s cells v Hr) as (a & s' & -> & _).
  - by destruct (push_front_spec s cells v Hr) as (a & s' & -> & _).
  - destruct (decide (cells = [])) as [->|Hne];
      [by rewrite (erase_empty s x Hr)|].
    destruct (decide (x ∈ cells.*2)) as [Hin|Hni].
    + destruct (first_split _ _ Hin) as (pre & b & post & -> & Hn).
      by destruct (erase_found s x pre b post Hr Hn) as (s' & -> & _).
    + by rewrite (erase_absent s x cells Hr).
  - destruct (decide (cells = [])) as [->|Hne];
      [by rewrite (insert_after_empty s pos v Hr)|].
    destruct (decide (pos ∈ cells.*2)) as [Hin|Hni].
    + destruct (first_split _ _ Hin) as (pre & b & post & -> & Hn).
      by destruct (insert_after_found s pos v pre b post Hr Hn)
        as (a & s' & -> & _).
    + by rewrite (insert_after_absent s pos v cells Hr).
  - by destruct (clear_spec s cells Hr) as (a0 & d0 & q & _ & _ & ->).
  - destruct (decide (cells = [])) as [->|Hne];
      [by rewrite (find_empty s x Hr)|].
    destruct (decide (x ∈ cells.*2)) as [Hin|Hni].
    + destruct (first_split _ _ Hin) as (pre & b & post & -> & Hn).
      by rewrite (find_found s x pre b post Hr Hn).
    + by rewrite (find_absent s x cells Hr).
  - destruct cells as [|[b x] cells].
    + by rewrite (front_empty s Hr).
    + by rewrite (front_spec s b x cells Hr).
  - destruct cells as [|[b x] cells _] using rev_ind.
    + by rewrite (back_empty s Hr).
    + rewrite (back_spec s cells b x Hr). rewrite decide_False; [done|].
      by destruct cells.
  - by rewrite (begin_spec s cells Hr).
  - destruct (decide (cells = [])) as [->|Hne].
    + rewrite (end_empty s); [done|]. by apply (repr_empty s []).
    + by rewrite (end_nonempty s cells Hr Hne).
  - done.
  - done.
Qed.

End Extras.

(** * Instances of the further properties *)

Module ExtraScenarios.
Import IntList MoreLists.
Open Scope Z_scope.

Ltac repr_by_evaluation :=
  exists 1%positive, 0; vm_compute; repeat (split || eexists).

Lemma push_front_prepends_witness :
  repr l123 cells123
  ∧ ∃ s', push_front 0 l123 = (Ok (), s')
      ∧ traversal s' = (Ok [0; 1; 2; 3], s')
      ∧ size_ s' = (Ok 4%N, s')
      ∧ front s' = (Ok 0, s')
      ∧ back s' = (Ok 3, s').
Proof.
  assert (Hr : repr l123 cells123) by repr_by_evaluation.
  split; [exact Hr|].
  destruct (push_front_prepends l123 cells123 0 Hr)
    as (s' & Hp & Ht & Hs & Hf & _ & Hb).
  exists s'. repeat split; try assumption. apply Hb. vm_compute. reflexivity.
Defined.

Lemma push_front_order_witness :
  repr nil []
  ∧ ∃ s', push_front_all [3; 2; 1] nil = (Ok (), s')
      ∧ traversal s' = (Ok [1; 2; 3], s')
      ∧ size_ s' = (Ok 3%N, s').
Proof.
  assert (Hn : repr nil []) by repr_by_evaluation.
  split; [exact Hn|]. exact (push_front_order nil [3; 2; 1] Hn).
Defined.

Lemma push_back_appends_witness :
  repr l123 cells123
  ∧ ∃ s', push_back 4 l123 = (Ok (), s')
      ∧ traversal s' = (Ok [1; 2; 3; 4], s')
      ∧ size_ s' = (Ok 4%N, s')
      ∧ back s' = (Ok 4, s')
      ∧ front s' = (Ok 1, s').
Proof.
  assert (Hr : repr l123 cells123) by repr_by_evaluation.
  split; [exact Hr|].
  destruct (push_back_appends l123 cells123 4 Hr)
    as (s' & Hp & Ht & Hs & Hb & _ & Hf).
  exists s'. repeat split; try assumption. apply Hf. vm_compute. reflexivity.
Defined.

Lemma front_back_correct_witness :
  repr l123 cells123 ∧ repr nil []
  ∧ front l123 = (Ok 1, l123) ∧ back l123 = (Ok 3, l123)
  ∧ front nil = (Throw EmptyContainer, nil)
  ∧ back nil = (Throw EmptyContainer, nil).
Proof.
  assert (Hr : repr l123 cells123) by repr_by_evaluation.
  assert (Hn : repr nil []) by repr_by_evaluation.
  split; [exact Hr|]. split; [exact Hn|].
  destruct (front_back_correct l123 cells123 Hr) as (_ & Hfull).
  destruct (front_back_correct nil [] Hn) as (Hempty & _).
  destruct (Hfull 1 3 eq_refl eq_refl) as [Hf Hb].
  destruct (Hempty eq_refl) as [Hf' Hb'].
  repeat split; assumption.
Defined.

Lemma queries_change_nothing_witness :
  mutator (Find 2) = false ∧ exec (Find 2) l123 = l123
  ∧ mutator (T:=Z) End_ = false ∧ exec End_ nil = nil.
Proof.
  split; [reflexivity|]. split; [exact (queries_change_nothing l123 (Find 2) eq_refl)|].
  split; [reflexivity|]. exact (queries_change_nothing nil End_ eq_refl).
Defined.

Lemma erase_removes_first_only_witness :
  repr l1212 cells1212 ∧ 2 ∈ cells1212.*2
  ∧ ∃ s' vs', erase 2 l1212 = (Ok (), s')
      ∧ traversal s' = (Ok vs', s')
      ∧ vs' = [1; 1; 2]
      ∧ S (occurrences 2 vs') = occurrences 2 [1; 2; 1; 2]
      ∧ (∀ y, y ≠ 2 → occurrences y vs' = occurrences y [1; 2; 1; 2])
      ∧ size_ l1212 = (Ok (N.of_nat (S (length vs'))), l1212)
      ∧ size_ s' = (Ok (N.of_nat (length vs')), s').
Proof.
  assert (Hr : repr l1212 cells1212) by repr_by_evaluation.
  assert (Hin : 2 ∈ cells1212.*2) by compute_done.
  split; [exact Hr|]. split; [exact Hin|].
  exact (erase_removes_first_only l1212 cells1212 2 Hr Hin).
Defined.

Lemma erase_tail_moves_tail_witness :
  repr l123 ([(2%positive, 1); (3%positive, 2)] ++ [(4%positive, 3)])
  ∧ (3 ∉ [(2%positive, 1); (3%positive, 2)].*2)
  ∧ repr l7 ([] ++ [(2%positive, 7)])
  ∧ (∃ s1 s2, erase 3 l123 = (Ok (), s1)
       ∧ back s1 = (Ok 2, s1)
       ∧ push_back 9 s1 = (Ok (), s2)
       ∧ traversal s2 = (Ok [1; 2; 9], s2)
       ∧ back s2 = (Ok 9, s2))
  ∧ (∃ s1 s2, erase 7 l7 = (Ok (), s1)
       ∧ empty s1 = (Ok true, s1)
       ∧ back s1 = (Throw EmptyContainer, s1)
       ∧ push_back 9 s1 = (Ok (), s2)
       ∧ traversal s2 = (Ok [9], s2)).
Proof.
  assert (Hr : repr l123 ([(2%positive, 1); (3%positive, 2)] ++ [(4%positive, 3)]))
    by repr_by_evaluation.
  assert (Hn : 3 ∉ [(2%positive, 1); (3%positive, 2)].*2) by compute_done.
  assert (Hr7 : repr l7 ([] ++ [(2%positive, 7)])) by repr_by_evaluation.
  split; [exact Hr|]. split; [exact Hn|]. split; [exact Hr7|]. split.
  - destruct (erase_tail_moves_tail l123 _ _ 3 9 Hr Hn)
      as (s1 & s2 & He & _ & Hb & Hp & Ht & Hb2).
    exists s1, s2. repeat split; try assumption. by apply Hb.
  - destruct (erase_tail_moves_tail l7 [] _ 7 9 Hr7 (not_elem_of_nil _))
      as (s1 & s2 & He & Hemp & _ & Hp & Ht & _).
    destruct (Hemp eq_refl) as [He1 Hb1].
    exists s1, s2. repeat split; assumption.
Defined.

Lemma erase_then_lookup_fails_witness :
  repr l123 cells123 ∧ occurrences 2 (cells123.*2) = 1%nat
  ∧ repr l7 cells7 ∧ occurrences 7 (cells7.*2) = 1%nat
  ∧ (∃ s', erase 2 l123 = (Ok (), s')
       ∧ find 2 s' = (Ok None, s')
       ∧ erase 2 s' = (Throw ValueNotFound, s'))
  ∧ (∃ s', erase 7 l7 = (Ok (), s')
       ∧ find 7 s' = (Throw EmptyContainer, s')
       ∧ erase 7 s' = (Throw EmptyContainer, s')).
Proof.
  assert (Hr : repr l123 cells123) by repr_by_evaluation.
  assert (Hr7 : repr l7 cells7) by repr_by_evaluation.
  assert (Ho : occurrences 2 (cells123.*2) = 1%nat) by reflexivity.
  assert (Ho7 : occurrences 7 (cells7.*2) = 1%nat) by reflexivity.
  split; [exact Hr|]. split; [exact Ho|].
  split; [exact Hr7|]. split; [exact Ho7|]. split.
  - destruct (erase_then_lookup_fails l123 cells123 2 Hr Ho)
      as (s' & He & _ & Hmany).
    destruct Hmany as [Hf He2]; [done|]. exists s'. repeat split; assumption.
  - destruct (erase_then_lookup_fails l7 cells7 7 Hr7 Ho7)
      as (s' & He & Hone & _).
    destruct (Hone eq_refl) as [Hf He2]. exists s'. repeat split; assumption.
Defined.

Lemma push_front_erase_roundtrip_witness :
  repr l123 cells123
  ∧ ∃ s1 s2, push_front 2 l123 = (Ok (), s1) ∧ erase 2 s1 = (Ok (), s2)
      ∧ repr s2 cells123
      ∧ traversal s2 = (Ok [1; 2; 3], s2)
      ∧ fst (traversal s2) = fst (traversal l123)
      ∧ fst (size_ s2) = fst (size_ l123)
      ∧ fst (front s2) = fst (front l123)
      ∧ fst (back s2) = fst (back l123).
Proof.
  assert (Hr : repr l123 cells123) by repr_by_evaluation.
  split; [exact Hr|]. exact (push_front_erase_roundtrip l123 cells123 2 Hr).
Defined.

Lemma insert_after_erase_roundtrip_witness :
  repr l123 cells123 ∧ 2 ∈ cells123.*2 ∧ (9 ∉ cells123.*2)
  ∧ ∃ s1 s2, insert_after 2 9 l123 = (Ok (), s1) ∧ erase 9 s1 = (Ok (), s2)
      ∧ repr s2 cells123
      ∧ fst (traversal s2) = fst (traversal l123)
      ∧ fst (size_ s2) = fst (size_ l123)
      ∧ fst (front s2) = fst (front l123)
      ∧ fst (back s2) = fst (back l123).
Proof.
  assert (Hr : repr l123 cells123) by repr_by_evaluation.
  assert (Hin : 2 ∈ cells123.*2) by compute_done.
  assert (Hni : 9 ∉ cells123.*2) by compute_done.
  split; [exact Hr|]. split; [exact Hin|]. split; [exact Hni|].
  exact (insert_after_erase_roundtrip l123 cells123 2 9 Hr Hin Hni).
Defined.

Lemma push_back_then_find_witness :
  repr l123 cells123 ∧ (9 ∉ cells123.*2)
  ∧ ∃ s' p, push_back 9 l123 = (Ok (), s')
      ∧ find 9 s' = (Ok (Some p), s')
      ∧ node_get (heap s') (Some p) = Ok 9
      ∧ m_last s' = Some p.
Proof.
  assert (Hr : repr l123 cells123) by repr_by_evaluation.
  assert (Hni : 9 ∉ cells123.*2) by compute_done.
  split; [exact Hr|]. split; [exact Hni|].
  destruct (push_back_then_find l123 cells123 9 Hr) as (s' & p & Hp & Hf & Hg & Hl).
  exists s', p. repeat split; try assumption. by apply Hl.
Defined.

Lemma iterator_steps_witness :
  repr l123 cells123
  ∧ ∃ b, begin_ l123 = (Ok b, l123)
      ∧ (∃ it, advance 1 (heap l123) b = (Ok (), it)
               ∧ iter_eq it iterator_default = false
               ∧ deref (heap l123) it = (Ok 2, it))
      ∧ (∃ it, advance 3 (heap l123) b = (Ok (), it)
               ∧ iter_eq it iterator_default = true
               ∧ fst (deref (heap l123) it) = Undefined).
Proof.
  assert (Hr : repr l123 cells123) by repr_by_evaluation.
  split; [exact Hr|].
  destruct (iterator_steps l123 cells123 Hr) as (b & Hb & Hat & Hend).
  exists b. split; [exact Hb|]. split; [exact (Hat 1%nat 2 eq_refl)|exact Hend].
Defined.

Lemma begin_correct_witness :
  repr l123 cells123 ∧ repr nil []
  ∧ (∃ b, begin_ l123 = (Ok b, l123)
       ∧ (iter_eq b iterator_default = true ↔ cells123 = [])
       ∧ deref (heap l123) b = (Ok 1, b))
  ∧ (∃ b, begin_ nil = (Ok b, nil) ∧ iter_eq b iterator_default = true).
Proof.
  assert (Hr : repr l123 cells123) by repr_by_evaluation.
  assert (Hn : repr nil []) by repr_by_evaluation.
  split; [exact Hr|]. split; [exact Hn|]. split.
  - destruct (begin_correct l123 cells123 Hr) as (b & Hb & Hiff & Hd).
    exists b. repeat split; try assumption; try apply Hiff.
    apply Hd. vm_compute. reflexivity.
  - destruct (begin_correct nil [] Hn) as (b & Hb & Hiff & _).
    exists b. split; [exact Hb|]. by apply Hiff.
Defined.

Lemma operator_shl_correct_witness :
  repr l123 cells123 ∧ repr nil []
  ∧ operator_shl l123 []
    = (Ok (), [Elem 1; Space; Elem 2; Space; Elem 3; Space])
  ∧ fst (operator_shl nil [Elem 5; Space]) = Undefined.
Proof.
  assert (Hr : repr l123 cells123) by repr_by_evaluation.
  assert (Hn : repr nil []) by repr_by_evaluation.
  split; [exact Hr|]. split; [exact Hn|].
  destruct (operator_shl_correct l123 cells123 [] Hr) as (Hfull & _).
  destruct (operator_shl_correct nil [] [Elem 5; Space] Hn) as (_ & Hempty).
  split; [by apply Hfull|by apply Hempty].
Defined.

Lemma size_counts_traversal_witness :
  let s := exec (Erase 2) (exec (PushFront 0) l123) in
  reachable 0 any_op s
  ∧ ∃ vs, traversal s = (Ok vs, s)
      ∧ size_ s = (Ok (N.of_nat (length vs)), s)
      ∧ empty s = (Ok (bool_decide (vs = [])), s).
Proof.
  intros s.
  assert (Hreach : reachable 0 any_op s).
  { do 2 (apply reach_step; [reflexivity|]). apply reach_init. }
  split; [exact Hreach|]. exact (size_counts_traversal 0 s Hreach).
Defined.

Lemma operations_keep_nodes_witness :
  repr l123 cells123
  ∧ (∃ cells', repr (exec (InsertAfter 2 9) l123) cells'
       ∧ m_first (exec (InsertAfter 2 9) l123) = m_first l123
       ∧ sublist cells123 cells' ∧ (length cells' ≤ 4)%nat)
  ∧ (∃ cells', repr (exec (Erase 2) l123) cells'
       ∧ m_first (exec (Erase 2) l123) = m_first l123
       ∧ sublist cells' cells123 ∧ (3 ≤ S (length cells'))%nat).
Proof.
  assert (Hr : repr l123 cells123) by repr_by_evaluation.
  split; [exact Hr|]. split.
  - exact (operations_keep_nodes l123 cells123 (InsertAfter 2 9) Hr).
  - exact (operations_keep_nodes l123 cells123 (Erase 2) Hr).
Defined.

Lemma clear_then_reuse_witness :
  repr l123 cells123
  ∧ ∃ s1 s2, clear l123 = (Ok (), s1) ∧ push_back_all [4; 5] s1 = (Ok (), s2)
      ∧ traversal s2 = (Ok [4; 5], s2)
      ∧ size_ s2 = (Ok 2%N, s2)
      ∧ m_first s2 = m_first l123.
Proof.
  assert (Hr : repr l123 cells123) by repr_by_evaluation.
  split; [exact Hr|]. exact (clear_then_reuse l123 cells123 [4; 5] Hr).
Defined.

Lemma reachable_chain_acyclic_witness :
  let s := exec (InsertAfter 1 9) l123 in
  reachable 0 any_op s
  ∧ ∃ a0 cells, m_first s = Some a0 ∧ repr s cells
      ∧ NoDup (a0 :: cells.*1)
      ∧ (∀ a, a ∈ a0 :: cells.*1 → is_Some (heap s !! a)).
Proof.
  intros s.
  assert (Hreach : reachable 0 any_op s).
  { apply reach_step; [reflexivity|]. apply reach_init. }
  split; [exact Hreach|]. exact (reachable_chain_acyclic 0 s Hreach).
Defined.

Lemma dtor_releases_witness :
  repr l123 cells123
  ∧ ∃ s', s_list_dtor l123 = (Ok (), s')
      ∧ m_first s' = None ∧ m_last s' = None ∧ m_size s' = 0%N.
Proof.
  assert (Hr : repr l123 cells123) by repr_by_evaluation.
  split; [exact Hr|]. exact (dtor_releases l123 cells123 Hr).
Defined.

Lemma endings_of_calls_witness :
  repr l123 cells123 ∧ repr nil []
  ∧ call (Erase 2) l123 = Returned
  ∧ call (Erase 9) l123 = Threw ValueNotFound
  ∧ call (InsertAfter 9 1) nil = Threw EmptyContainer
  ∧ call End_ nil = NoResult
  ∧ call End_ l123 = Returned.
Proof.
  assert (Hr : repr l123 cells123) by repr_by_evaluation.
  assert (Hn : repr nil []) by repr_by_evaluation.
  split; [exact Hr|]. split; [exact Hn|].
  split; [exact (endings_of_calls l123 cells123 (Erase 2) Hr)|].
  split; [exact (endings_of_calls l123 cells123 (Erase 9) Hr)|].
  split; [exact (endings_of_calls nil [] (InsertAfter 9 1) Hn)|].
  split; [exact (endings_of_calls nil [] End_ Hn)|].
  exact (endings_of_calls l123 cells123 End_ Hr).
Defined.

End ExtraScenarios.
